(** * Copper coil coordinate generator: the geometry helpers of [app.py]

    A shallow embedding of the geometry engine of the Flask application
    ([compute_coords], [outer_path_from_turns], [inner_path_from_outer],
    [inner_turns_from_inner_path], [build_spiral_path_from_turns],
    [format_points_txt] and the [POST] branch of [index], the call of
    [plot_spiral] being a parameter) together with the properties that the
    specification states about them.

    Numeric model.  The program computes on Python floats.  Coordinates are
    modelled as exact rationals [Q]: the literal [1e-12] is the fraction
    [1 / 10^12], [abs] is [Qabs], and the comparisons are the rational
    order.  Rounding is outside the model: the theorems below pin the
    expressions that the code evaluates, the structure of the lists and the
    outcome of the comparisons, and rest on no identity between computed
    corners that rounding breaks.  Where rounding decides, module [Binary64]
    gives the turn generator on the doubles of the code.  Python integers
    ([N], the loop counters) are [Z]; list lengths and list positions are
    [nat]. *)

From Stdlib Require Import QArith Qabs Qround Lqa ZArith Lia DecimalString.
From Stdlib Require PrimFloat FloatOps SpecFloat.
From stdpp Require Import base list strings.

Local Open Scope Q_scope.

(** ** Exceptions and results *)

Module Py.

(** The exceptions the modelled code can raise.  The explicit [raise]
    statements of the source carry a message; tuple unpacking of a
    sequence of the wrong size is also a [ValueError]. *)
Inductive exn : Type :=
| ValueError (msg : string)
| IndexError
| NameError.

Inductive result (A : Type) : Type :=
| Ok (a : A)
| Raise (e : exn).
Arguments Ok {A} a.
Arguments Raise {A} e.

Definition bind {A B} (r : result A) (k : A → result B) : result B :=
  match r with
  | Ok a => k a
  | Raise e => Raise e
  end.

(** [l[i]] for a position [i >= 0]. *)
Definition getitem {A} (l : list A) (i : nat) : result A :=
  match l !! i with
  | Some a => Ok a
  | None => Raise IndexError
  end.

(** [l[-1]]. *)
Definition getlast {A} (l : list A) : result A :=
  match last l with
  | Some a => Ok a
  | None => Raise IndexError
  end.

(** [range(lo, hi)] over the integers: empty when [hi <= lo]. *)
Definition range (lo hi : Z) : list Z := seqZ lo (hi - lo).

End Py.

Import Py.

#[global] Instance result_bind : MBind result := λ A B k r, bind r k.

(** ** Data model *)

Definition point : Type := Q * Q.

(** A turn is the Python list [[P1, P2, P3, P4]]. *)
Definition turn : Type := list point.

(** Orientation tag of an offset segment: the strings ["v"] and ["h"]. *)
Inductive ori : Type := OriV | OriH.

Definition ori_eqb (a b : ori) : bool :=
  match a, b with
  | OriV, OriV | OriH, OriH => true
  | _, _ => false
  end.

(** An entry of [segs]: [((x1+offx, y1+offy), (x2+offx, y2+offy), ori)]. *)
Definition seg : Type := point * point * ori.

(** The tolerance [1e-12]. *)
Definition eps : Q := 1 # 1000000000000.

Definition Qlt_bool (a b : Q) : bool := negb (Qle_bool b a).
Definition Qgt_bool (a b : Q) : bool := Qlt_bool b a.

(** ** [compute_coords] *)

(** Body of the loop of [compute_coords] for the turn number [t]: the list
    [[P1, P2, P3, P4]] that is appended to [turns]. *)
Definition compute_coords_turn (Lx By d : Q) (t : Z) : turn :=
  if (t =? 1)%Z then
    let P1 := (0, 0) in
    let P2 := (0, By) in
    let P3 := (Lx, By) in
    let P4 := (Lx, 0) in
    [P1; P2; P3; P4]
  else
    let i := (t - 1)%Z in
    let x_in := inject_Z i * d in
    let y_bottom_in := inject_Z (i - 1) * d in
    let y_top_in := By - inject_Z i * d in
    let x_right_in := Lx - inject_Z i * d in
    let P1 := (x_in, y_bottom_in) in
    let P2 := (x_in, y_top_in) in
    let P3 := (x_right_in, y_top_in) in
    let P4 := (x_right_in, inject_Z i * d) in
    [P1; P2; P3; P4].

(** [for t in range(1, N + 1): ... turns.append([P1, P2, P3, P4])]. *)
Fixpoint compute_coords_loop (Lx By d : Q) (ts : list Z) (turns : list turn)
  : list turn :=
  match ts with
  | [] => turns
  | t :: ts' =>
      compute_coords_loop Lx By d ts' (turns ++ [compute_coords_turn Lx By d t])
  end.

Definition compute_coords (Lx By : Q) (N : Z) (width gap : Q) : list turn :=
  let d := width + gap in
  compute_coords_loop Lx By d (range 1 (N + 1)) [].

(** ** [outer_path_from_turns] and [build_spiral_path_from_turns] *)

(** The loop target [(P1, P2, P3, P4)]: unpacking a sequence that has not
    exactly four items raises [ValueError]. *)
Definition unpack4 (t : turn) : result (point * point * point * point) :=
  match t with
  | [P1; P2; P3; P4] => Ok (P1, P2, P3, P4)
  | _ :: _ :: _ :: _ :: _ :: _ => Raise (ValueError "too many values to unpack")
  | _ => Raise (ValueError "not enough values to unpack")
  end.

Fixpoint outer_path_from_turns_loop (turns : list turn) (path : list point)
  : result (list point) :=
  match turns with
  | [] => Ok path
  | t :: turns' =>
      '(P1, P2, P3, P4) ← unpack4 t;
      outer_path_from_turns_loop turns' (path ++ [P1; P2; P3; P4])
  end.

Definition outer_path_from_turns (turns : list turn) : result (list point) :=
  outer_path_from_turns_loop turns [].

(** [for idx, (P1, P2, P3, P4) in enumerate(turns)]: both branches of the
    test on [idx] extend the path in the same way, as in the source. *)
Fixpoint build_spiral_path_loop (idx : nat) (turns : list turn)
  (path : list point) : result (list point) :=
  match turns with
  | [] => Ok path
  | t :: turns' =>
      '(P1, P2, P3, P4) ← unpack4 t;
      if (idx =? 0)%nat then
        build_spiral_path_loop (S idx) turns' (path ++ [P1; P2; P3; P4])
      else
        build_spiral_path_loop (S idx) turns' (path ++ [P1; P2; P3; P4])
  end.

Definition build_spiral_path_from_turns (turns : list turn)
  : result (list point) :=
  build_spiral_path_loop 0 turns [].

(** ** [inner_path_from_outer] *)

(** Body of the first loop for the points [(x1, y1)] and [(x2, y2)]: the two
    validations, then the right-hand offset and the entry appended to
    [segs]. *)
Definition offset_segment (width : Q) (p1 p2 : point) : result seg :=
  let '(x1, y1) := p1 in
  let '(x2, y2) := p2 in
  let dx := x2 - x1 in
  let dy := y2 - y1 in
  if Qgt_bool (Qabs dx) eps && Qgt_bool (Qabs dy) eps then
    Raise (ValueError "Non-axis-aligned segment found.")
  else if Qlt_bool (Qabs dx) eps && Qlt_bool (Qabs dy) eps then
    Raise (ValueError "Zero-length segment found.")
  else
    let '(offx, offy, o) :=
      if Qlt_bool (Qabs dx) eps then
        if Qgt_bool dy 0 then (width, 0, OriV) else (- width, 0, OriV)
      else
        if Qgt_bool dx 0 then (0, - width, OriH) else (0, width, OriH) in
    Ok ((x1 + offx, y1 + offy), (x2 + offx, y2 + offy), o).

(** [for i in range(n - 1)]: reads [outer_path[i]] and [outer_path[i + 1]]
    and appends to [segs]. *)
Fixpoint segs_loop (outer_path : list point) (width : Q) (idxs : list nat)
  (segs : list seg) : result (list seg) :=
  match idxs with
  | [] => Ok segs
  | i :: idxs' =>
      p1 ← getitem outer_path i;
      p2 ← getitem outer_path (i + 1);
      s ← offset_segment width p1 p2;
      segs_loop outer_path width idxs' (segs ++ [s])
  end.

(** Body of the second loop: the inner vertex for the consecutive offset
    segments [(a1, a2, ori1)] and [(b1, b2, ori2)]. *)
Definition inner_vertex (a b : seg) : point :=
  let '(a1, a2, ori1) := a in
  let '(b1, b2, ori2) := b in
  if ori_eqb ori1 ori2 then b1
  else if ori_eqb ori1 OriV then (a1.1, b1.2)
  else (b1.1, a1.2).

(** [for i in range(1, len(segs))]: reads [segs[i - 1]] and [segs[i]]. *)
Fixpoint inner_loop (segs : list seg) (idxs : list nat) (inner : list point)
  : result (list point) :=
  match idxs with
  | [] => Ok inner
  | i :: idxs' =>
      a ← getitem segs (i - 1);
      b ← getitem segs i;
      inner_loop segs idxs' (inner ++ [inner_vertex a b])
  end.

Definition inner_path_from_outer (outer_path : list point) (width : Q)
  : result (list point) :=
  let n := length outer_path in
  if (n <? 2)%nat then Ok []
  else
    segs ← segs_loop outer_path width (seq 0 (n - 1)) [];
    s0 ← getitem segs 0;
    inner ← inner_loop segs (seq 1 (length segs - 1)) [s0.1.1];
    sl ← getlast segs;
    Ok (inner ++ [sl.1.2]).

(** ** [inner_turns_from_inner_path] *)

(** The slice [l[a:b]] for [0 <= a <= b]; a slice never raises and is cut
    at the end of the list. *)
Definition slice {A} (l : list A) (a b : nat) : list A :=
  take (b - a) (drop a l).

(** [[inner_path[4*k:4*k+4] for k in range(N)]]. *)
Definition inner_turns_from_inner_path (inner_path : list point) (N : Z)
  : list turn :=
  (λ k : Z, slice inner_path (Z.to_nat (4 * k)) (Z.to_nat (4 * k + 4)))
    <$> range 0 N.

(** ** The export assembly of [index] *)

(** Lines building [all_points].  [inner_path] is bound only when
    [include_inner] holds; [None] stands for the unbound name. *)
Definition export_points (include_inner : bool) (outer_path : list point)
  (inner_path : option (list point)) : result (list point) :=
  let all_points := outer_path in
  all_points ←
    (if include_inner then
       match inner_path with
       | None => Raise NameError
       | Some inner_path =>
           if bool_decide (inner_path ≠ []) then
             let reversed_inner := reverse inner_path in
             Ok (all_points ++ reversed_inner)
           else Ok all_points
       end
     else Ok all_points);
  match outer_path with
  | p0 :: _ => Ok (all_points ++ [p0])
  | [] => Ok all_points
  end.

(** The point list that the [POST] branch of [index] hands to
    [format_points_txt], computed by the geometry helpers alone; the call of
    [plot_spiral] between them is left out here and is part of [index_post]
    below. *)
Definition index_points (Lx By width gap : Q) (N : Z) (include_inner : bool)
  : result (list point) :=
  let turns := compute_coords Lx By N width gap in
  outer_path ← outer_path_from_turns turns;
  inner_path ←
    (if include_inner then
       inner_path ← inner_path_from_outer outer_path width;
       let inner_turns := inner_turns_from_inner_path inner_path N in
       Ok (Some inner_path)
     else Ok None);
  export_points include_inner outer_path inner_path.

(** ** [format_points_txt] *)

(** The line separator ["\n"]. *)
Definition newline : Ascii.ascii := Ascii.ascii_of_nat 10.

(** Rounding of a non-negative rational to the nearest integer, ties to the
    even one. *)
Definition round_half_even (q : Q) : Z :=
  let f := Qfloor q in
  let r := q - inject_Z f in
  if Qlt_bool r (1 # 2) then f
  else if Qlt_bool (1 # 2) r then (f + 1)%Z
  else if Z.even f then f else (f + 1)%Z.

(** The decimal digits of a non-negative integer. *)
Definition digits (n : Z) : string :=
  NilZero.string_of_uint (N.to_uint (Z.to_N n)).

(** The conversion [{x:.2f}] on the exact value: the sign of a negative
    number, the integer part, a point and two fractional digits, the value
    rounded to hundredths with ties to even. *)
Definition format_2f (x : Q) : string :=
  let n := round_half_even (Qabs x * 100) in
  (if Qlt_bool x 0 then "-" else EmptyString)
  +:+ digits (n / 100) +:+ "." +:+ digits (n mod 100 / 10)
  +:+ digits (n mod 10).

(** [for x, y in points: lines.append(f"{x:.2f} {y:.2f}")]. *)
Fixpoint format_points_txt_loop (points : list point) (lines : list string)
  : list string :=
  match points with
  | [] => lines
  | (x, y) :: points' =>
      format_points_txt_loop points'
        (lines ++ [format_2f x +:+ " " +:+ format_2f y])
  end.

(** [return "\n".join(lines)]. *)
Definition format_points_txt (points : list point) : string :=
  String.concat (String newline EmptyString) (format_points_txt_loop points []).

(** ** The [POST] branch of [index] *)

(** The values that [index] hands to the template after a [POST]. *)
Record page (Img : Type) : Type := Page {
  page_turns : list turn;
  page_inner_turns : option (list turn);
  page_txt_data : string;
  page_coil_plot : Img
}.
Arguments Page {Img} _ _ _ _.
Arguments page_turns {Img} _.
Arguments page_inner_turns {Img} _.
Arguments page_txt_data {Img} _.
Arguments page_coil_plot {Img} _.

(** The [POST] branch of [index] from the parsed form values on.
    [plot_spiral] draws with matplotlib and is outside the model: it is a
    parameter, free to return an image ([inr]) or to raise an exception of
    its own ([inl]), which then leaves [index].  It is called on the outer
    path before the inner path is computed. *)
Definition index_post {E Img : Type} (plot_spiral : list point → E + Img)
    (Lx By width gap : Q) (N : Z) (include_inner : bool)
  : E + result (page Img) :=
  let turns := compute_coords Lx By N width gap in
  match outer_path_from_turns turns with
  | Raise e => inr (Raise e)
  | Ok outer_path =>
      match plot_spiral outer_path with
      | inl e => inl e
      | inr coil_plot =>
          inr (inner ←
                 (if include_inner then
                    inner_path ← inner_path_from_outer outer_path width;
                    let inner_turns :=
                      inner_turns_from_inner_path inner_path N in
                    Ok (Some inner_path, Some inner_turns)
                  else Ok (None, None));
               all_points ← export_points include_inner outer_path inner.1;
               let txt_data := format_points_txt all_points in
               Ok (Page turns inner.2 txt_data coil_plot))
      end
  end.

(** ** [compute_coords] on binary64 *)

Module Binary64.

Import PrimFloat.

(** A point of the code: a pair of doubles. *)
Definition point : Type := float * float.

(** The conversion of a Python integer to a double, rounded to nearest. *)
Definition of_int (i : Z) : float :=
  FloatOps.SF2Prim
    (SpecFloat.binary_normalize FloatOps.prec FloatOps.emax i 0 false).

(** The rational number that a finite double stands for. *)
Definition exact (f : float) : Q :=
  match FloatOps.Prim2SF f with
  | SpecFloat.S754_finite s m e =>
      let v := if s then Z.neg m else Z.pos m in
      if (0 <=? e)%Z then inject_Z (v * 2 ^ e)
      else Qmake v (Z.to_pos (2 ^ (- e)))
  | _ => 0%Q
  end.

(** The loop body of [compute_coords], every operation rounded as the code
    rounds it. *)
Definition compute_coords_turn (Lx By d : float) (t : Z) : list point :=
  if (t =? 1)%Z then
    let P1 := (0%float, 0%float) in
    let P2 := (0%float, By) in
    let P3 := (Lx, By) in
    let P4 := (Lx, 0%float) in
    [P1; P2; P3; P4]
  else
    let i := (t - 1)%Z in
    let x_in := mul (of_int i) d in
    let y_bottom_in := mul (of_int (i - 1)) d in
    let y_top_in := sub By (mul (of_int i) d) in
    let x_right_in := sub Lx (mul (of_int i) d) in
    let P1 := (x_in, y_bottom_in) in
    let P2 := (x_in, y_top_in) in
    let P3 := (x_right_in, y_top_in) in
    let P4 := (x_right_in, mul (of_int i) d) in
    [P1; P2; P3; P4].

Fixpoint compute_coords_loop (Lx By d : float) (ts : list Z)
  (turns : list (list point)) : list (list point) :=
  match ts with
  | [] => turns
  | t :: ts' =>
      compute_coords_loop Lx By d ts' (turns ++ [compute_coords_turn Lx By d t])
  end.

Definition compute_coords (Lx By : float) (N : Z) (width gap : float)
  : list (list point) :=
  let d := add width gap in
  compute_coords_loop Lx By d (Py.range 1 (N + 1)) [].


End Binary64.

(** ** Vocabulary of the specification *)

(** The degeneracy test that the specification attaches to turn [t]:
    [x_right_in <= x_in] or [y_top_in <= y_bottom_in]. *)
Definition degenerate_turn (Lx By width gap : Q) (t : Z) : Prop :=
  let d := width + gap in
  let i := (t - 1)%Z in
  Lx - inject_Z i * d <= inject_Z i * d ∨
  By - inject_Z i * d <= inject_Z (i - 1) * d.

(** The corners that the specification gives for a turn [t > 1]. *)
Definition inner_turn_corners (Lx By d : Q) (t : Z) : turn :=
  let i := (t - 1)%Z in
  [ (inject_Z i * d, inject_Z (i - 1) * d);
    (inject_Z i * d, By - inject_Z i * d);
    (Lx - inject_Z i * d, By - inject_Z i * d);
    (Lx - inject_Z i * d, inject_Z i * d) ].

(** The two errors of the offsetter, by the message the source raises. *)
Definition NonAxisAlignedSegment : exn :=
  ValueError "Non-axis-aligned segment found.".
Definition DegenerateSegment : exn :=
  ValueError "Zero-length segment found.".

(** A property of every consecutive pair of points of a path. *)
Definition adjacent (R : point → point → Prop) (path : list point) : Prop :=
  ∀ (k : nat) (p q : point),
    path !! k = Some p → path !! S k = Some q → R p q.

(** The pair changes both coordinates by more than the tolerance. *)
Definition diagonal (p q : point) : Prop :=
  eps < Qabs (q.1 - p.1) ∧ eps < Qabs (q.2 - p.2).

(** The pair changes neither coordinate by at least the tolerance. *)
Definition degenerate (p q : point) : Prop :=
  Qabs (q.1 - p.1) < eps ∧ Qabs (q.2 - p.2) < eps.

(** Every pair before position [k] passes both validations. *)
Definition accepted_before (path : list point) (k : nat) : Prop :=
  ∀ (j : nat) (p q : point), (j < k)%nat →
    path !! j = Some p → path !! S j = Some q →
    ¬ diagonal p q ∧ ¬ degenerate p q.

(** The pair keeps one coordinate (the other may or may not change). *)
Definition keeps_one_coordinate (p q : point) : Prop :=
  q.1 == p.1 ∨ q.2 == p.2.


(** The segments of an axis-aligned path, by direction of travel. *)
Inductive direction : Type := GoUp | GoDown | GoRight | GoLeft.

Definition travels (p q : point) (dir : direction) : Prop :=
  match dir with
  | GoUp => q.1 == p.1 ∧ p.2 < q.2
  | GoDown => q.1 == p.1 ∧ q.2 < p.2
  | GoRight => q.2 == p.2 ∧ p.1 < q.1
  | GoLeft => q.2 == p.2 ∧ q.1 < p.1
  end.

Definition axis_aligned (p q : point) : Prop := ∃ dir, travels p q dir.

(** The right-hand-side-of-travel rule of the specification. *)
Definition right_hand_offset (width : Q) (dir : direction) : Q * Q :=
  match dir with
  | GoUp => (width, 0)
  | GoDown => (- width, 0)
  | GoRight => (0, - width)
  | GoLeft => (0, width)
  end.

Definition orientation (dir : direction) : ori :=
  match dir with
  | GoUp | GoDown => OriV
  | GoRight | GoLeft => OriH
  end.

Definition translate (p : point) (off : Q * Q) : point :=
  (p.1 + off.1, p.2 + off.2).

(** The segment from [p] to [q] moved to the right of its travel. *)
Definition offset_by (width : Q) (dir : direction) (p q : point) : seg :=
  (translate p (right_hand_offset width dir),
   translate q (right_hand_offset width dir),
   orientation dir).

Definition seg_start (s : seg) : point := s.1.1.
Definition seg_end (s : seg) : point := s.1.2.
Definition seg_ori (s : seg) : ori := s.2.

(** The inner vertex of two adjacent offset segments in the words of the
    specification: for different orientations the x of the vertical one and
    the y of the horizontal one; for equal orientations the start point of
    the later one. *)
Definition corner (a b : seg) : point :=
  match seg_ori a, seg_ori b with
  | OriV, OriH => ((seg_start a).1, (seg_start b).2)
  | OriH, OriV => ((seg_start b).1, (seg_start a).2)
  | _, _ => seg_start b
  end.

(** The two loops of [inner_path_from_outer] by recursion on the list: the
    offset segments of the consecutive pairs, stopping at the first pair
    that is refused, and the inner vertices of the consecutive segments. *)
Fixpoint offset_all (width : Q) (path : list point) : result (list seg) :=
  match path with
  | p1 :: path' =>
      match path' with
      | p2 :: _ =>
          s ← offset_segment width p1 p2;
          ss ← offset_all width path';
          Ok (s :: ss)
      | [] => Ok []
      end
  | [] => Ok []
  end.

Fixpoint corners (segs : list seg) : list point :=
  match segs with
  | a :: segs' =>
      match segs' with
      | b :: _ => inner_vertex a b :: corners segs'
      | [] => []
      end
  | [] => []
  end.

(** ** Further vocabulary *)

(** [p] and [q] have equal coordinates as rational numbers. *)
Definition point_eq (p q : point) : Prop := p.1 == q.1 ∧ p.2 == q.2.

(** The displacement of the vertex where a segment of direction [d1] meets
    one of direction [d2]: both right-hand offsets at a corner, the later
    one on a straight run. *)
Definition vertex_offset (width : Q) (d1 d2 : direction) : Q * Q :=
  if ori_eqb (orientation d1) (orientation d2) then
    right_hand_offset width d2
  else
    ((right_hand_offset width d1).1 + (right_hand_offset width d2).1,
     (right_hand_offset width d1).2 + (right_hand_offset width d2).2).

(** The direction of the segment that starts at position [k] of a clockwise
    rectangular spiral: up, right, down, left, and again. *)
Definition spiral_direction (k : nat) : direction :=
  match (k mod 4)%nat with
  | 0%nat => GoUp
  | 1%nat => GoRight
  | 2%nat => GoDown
  | _ => GoLeft
  end.

(** The displacement of the inner vertex at position [k] of a spiral of [n]
    points: inward by [width] along both axes at a corner, along x only at
    the two ends. *)
Definition spiral_offset (width : Q) (n k : nat) : Q * Q :=
  if (k =? 0)%nat then (width, 0)
  else if (S k =? n)%nat then (- width, 0)
  else
    match (k mod 4)%nat with
    | 0%nat => (width, width)
    | 1%nat => (width, - width)
    | 2%nat => (- width, - width)
    | _ => (- width, width)
    end.

(** The character [c] occurs in [s]. *)
Fixpoint occurs (c : Ascii.ascii) (s : string) : bool :=
  match s with
  | EmptyString => false
  | String a s' => Ascii.eqb a c || occurs c s'
  end.

(** The pieces of [s] between the occurrences of [c], as [s.split(c)]
    gives them. *)
Fixpoint split_on (c : Ascii.ascii) (s : string) : list string :=
  match s with
  | EmptyString => [EmptyString]
  | String a s' =>
      if Ascii.eqb a c then EmptyString :: split_on c s'
      else
        match split_on c s' with
        | piece :: pieces => String a piece :: pieces
        | [] => [String a EmptyString]
        end
  end.

(** ** Generic facts on the loops *)

Section loops.

Lemma bind_Ok {A B} (r : result A) (k : A → result B) (b : B) :
  r ≫= k = Ok b ↔ ∃ a, r = Ok a ∧ k a = Ok b.
Proof.
  destruct r as [a|e]; cbn.
  - split; [eauto | intros (a' & [= ->] & ?); done].
  - split; [done | intros (a' & ? & _); done].
Qed.

Lemma compute_coords_loop_fmap Lx By d ts turns :
  compute_coords_loop Lx By d ts turns
  = turns ++ (compute_coords_turn Lx By d <$> ts).
Proof.
  revert turns. induction ts as [|t ts IH]; intros turns; cbn.
  - by rewrite app_nil_r.
  - by rewrite IH, <- app_assoc.
Qed.

Lemma compute_coords_fmap Lx By N width gap :
  compute_coords Lx By N width gap
  = compute_coords_turn Lx By (width + gap) <$> seqZ 1 N.
Proof.
  unfold compute_coords, range. rewrite compute_coords_loop_fmap. cbn.
  by replace (N + 1 - 1)%Z with N by lia.
Qed.

Lemma length_compute_coords Lx By N width gap :
  length (compute_coords Lx By N width gap) = Z.to_nat N.
Proof. by rewrite compute_coords_fmap, length_fmap, length_seqZ. Qed.

(** Turn number [t] sits at position [t - 1]. *)
Lemma lookup_compute_coords Lx By N width gap (t : Z) :
  (1 ≤ t ≤ N)%Z →
  compute_coords Lx By N width gap !! Z.to_nat (t - 1)
  = Some (compute_coords_turn Lx By (width + gap) t).
Proof.
  intros Ht. rewrite compute_coords_fmap, list_lookup_fmap.
  rewrite lookup_seqZ_lt by lia. cbn. f_equal. f_equal. lia.
Qed.

(** For [t > 1] the loop takes the second branch. *)
Lemma lookup_compute_coords_inner Lx By N width gap (t : Z) :
  (1 < t ≤ N)%Z →
  compute_coords Lx By N width gap !! Z.to_nat (t - 1)
  = Some (inner_turn_corners Lx By (width + gap) t).
Proof.
  intros Ht. rewrite lookup_compute_coords by lia.
  unfold compute_coords_turn.
  destruct (Z.eqb_spec t 1) as [?|_]; [lia|done].
Qed.

Lemma unpack4_length (t : turn) :
  length t = 4%nat → ∃ P1 P2 P3 P4, t = [P1; P2; P3; P4].
Proof.
  destruct t as [|a [|b [|c [|d [|e t]]]]]; try done. intros _. eauto.
Qed.

(** On turns of four points the flattening loop is concatenation. *)
Lemma outer_path_from_turns_loop_concat (turns : list turn) path :
  Forall (λ t, length t = 4%nat) turns →
  outer_path_from_turns_loop turns path = Ok (path ++ concat turns).
Proof.
  intros Hall. revert path.
  induction Hall as [|t turns Ht _ IH]; intros path; cbn.
  - by rewrite app_nil_r.
  - destruct (unpack4_length t Ht) as (P1 & P2 & P3 & P4 & ->). cbn.
    rewrite IH. by rewrite <- app_assoc.
Qed.

Lemma outer_path_from_turns_concat (turns : list turn) :
  Forall (λ t, length t = 4%nat) turns →
  outer_path_from_turns turns = Ok (concat turns).
Proof. apply outer_path_from_turns_loop_concat. Qed.

Lemma build_spiral_path_loop_eq idx (turns : list turn) path :
  build_spiral_path_loop idx turns path
  = outer_path_from_turns_loop turns path.
Proof.
  revert idx path. induction turns as [|t turns IH]; intros idx path; [done|].
  cbn. destruct (unpack4 t) as [[[[P1 P2] P3] P4]|e]; cbn; [|done].
  destruct (idx =? 0)%nat; apply IH.
Qed.

Lemma length_compute_coords_turn Lx By d t :
  length (compute_coords_turn Lx By d t) = 4%nat.
Proof. unfold compute_coords_turn. by destruct (t =? 1)%Z. Qed.

Lemma Forall_length_compute_coords Lx By N width gap :
  Forall (λ t, length t = 4%nat) (compute_coords Lx By N width gap).
Proof.
  rewrite compute_coords_fmap. apply Forall_fmap, Forall_forall.
  intros t _. apply length_compute_coords_turn.
Qed.

(** Slices of a list. *)
Lemma slice_block {A} (l : list A) (k : Z) :
  (0 ≤ k)%Z →
  slice l (Z.to_nat (4 * k)) (Z.to_nat (4 * k + 4))
  = take 4 (drop (4 * Z.to_nat k) l).
Proof.
  intros Hk. unfold slice. f_equal; [lia | f_equal; lia].
Qed.

Lemma inner_turns_blocks (inner_path : list point) (N : Z) :
  inner_turns_from_inner_path inner_path N
  = (λ k : nat, take 4 (drop (4 * k) inner_path)) <$> seq 0 (Z.to_nat N).
Proof.
  unfold inner_turns_from_inner_path, range, seqZ.
  replace (N - 0)%Z with N by lia.
  rewrite <- list_fmap_compose. apply list_fmap_ext.
  intros i k Hk. cbn. rewrite slice_block by lia.
  do 3 f_equal. lia.
Qed.

Lemma concat_blocks {A} (l : list A) (a n : nat) :
  concat ((λ k : nat, take 4 (drop (4 * k) l)) <$> seq a n)
  = take (4 * n) (drop (4 * a) l).
Proof.
  revert a. induction n as [|n IH]; intros a; cbn [seq fmap list_fmap concat].
  - done.
  - rewrite IH. replace (4 * S a)%nat with (4 * a + 4)%nat by lia.
    rewrite <- drop_drop.
    replace (4 * S n)%nat with (4 + 4 * n)%nat by lia.
    by rewrite take_take_drop.
Qed.

End loops.

(** ** The loops of [inner_path_from_outer], by recursion on the list *)

Section offsetter_loops.

Lemma getitem_app_mid {A} (pre : list A) (x : A) (l : list A) :
  getitem (pre ++ x :: l) (length pre) = Ok x.
Proof. unfold getitem. by rewrite list_lookup_middle. Qed.

Lemma offset_all_cons2 width p1 p2 (rest : list point) :
  offset_all width (p1 :: p2 :: rest)
  = s ← offset_segment width p1 p2;
    ss ← offset_all width (p2 :: rest);
    Ok (s :: ss).
Proof. done. Qed.

Lemma corners_cons2 a b (rest : list seg) :
  corners (a :: b :: rest) = inner_vertex a b :: corners (b :: rest).
Proof. done. Qed.

Lemma segs_loop_offset_all width (path pre : list point) (acc : list seg) :
  segs_loop (pre ++ path) width (seq (length pre) (length path - 1)) acc
  = ss ← offset_all width path; Ok (acc ++ ss).
Proof.
  revert pre acc. induction path as [|p1 path IH]; intros pre acc.
  - cbn. by rewrite app_nil_r.
  - destruct path as [|p2 rest].
    + cbn. by rewrite app_nil_r.
    + cbn [length Nat.sub seq segs_loop].
      rewrite getitem_app_mid. cbn [mbind result_bind bind].
      replace (pre ++ p1 :: p2 :: rest) with ((pre ++ [p1]) ++ p2 :: rest)
        by (by rewrite <- app_assoc).
      replace (length pre + 1)%nat with (length (pre ++ [p1]))
        by (rewrite length_app; cbn; lia).
      rewrite getitem_app_mid. cbn [mbind result_bind bind].
      rewrite offset_all_cons2.
      destruct (offset_segment width p1 p2) as [s|e]; [|done].
      cbn [mbind result_bind bind].
      replace (S (length pre)) with (length (pre ++ [p1]))
        by (rewrite length_app; cbn; lia).
      replace (length rest) with (length (p2 :: rest) - 1)%nat
        by (cbn; lia).
      rewrite IH.
      destruct (offset_all width (p2 :: rest)) as [ss|e]; [|done].
      cbn. by rewrite <- app_assoc.
Qed.

Lemma inner_loop_corners (pre : list seg) (a : seg) (rest : list seg)
    (acc : list point) :
  inner_loop (pre ++ a :: rest) (seq (S (length pre)) (length rest)) acc
  = Ok (acc ++ corners (a :: rest)).
Proof.
  revert pre a acc. induction rest as [|b rest IH]; intros pre a acc.
  - cbn. by rewrite app_nil_r.
  - cbn [length seq inner_loop]. cbn [Nat.sub]. rewrite Nat.sub_0_r.
    rewrite getitem_app_mid. cbn [mbind result_bind bind].
    replace (pre ++ a :: b :: rest) with ((pre ++ [a]) ++ b :: rest)
      by (by rewrite <- app_assoc).
    replace (S (length pre)) with (length (pre ++ [a]))
      by (rewrite length_app; cbn; lia).
    rewrite getitem_app_mid. cbn [mbind result_bind bind].
    rewrite IH, corners_cons2. by rewrite <- app_assoc.
Qed.

Lemma length_offset_all width path ss :
  offset_all width path = Ok ss → length ss = (length path - 1)%nat.
Proof.
  revert ss. induction path as [|p1 path IH]; intros ss.
  - by intros [= <-].
  - destruct path as [|p2 rest]; [by intros [= <-]|].
    rewrite offset_all_cons2.
    intros (s & _ & H)%bind_Ok. apply bind_Ok in H as (ss' & Hss' & [= <-]).
    cbn. rewrite (IH _ Hss'). cbn. lia.
Qed.

Lemma length_corners segs : length (corners segs) = (length segs - 1)%nat.
Proof.
  induction segs as [|a segs IH]; [done|].
  destruct segs as [|b rest]; [done|].
  rewrite corners_cons2. cbn [length]. rewrite IH. cbn. lia.
Qed.

(** The whole function on a path of at least two points. *)
Lemma inner_path_from_outer_unfold (path : list point) width :
  (2 ≤ length path)%nat →
  inner_path_from_outer path width
  = ss ← offset_all width path;
    match ss with
    | s0 :: _ =>
        match last ss with
        | Some sl => Ok (seg_start s0 :: corners ss ++ [seg_end sl])
        | None => Raise IndexError
        end
    | [] => Raise IndexError
    end.
Proof.
  intros Hn. unfold inner_path_from_outer.
  destruct (Nat.ltb_spec (length path) 2) as [?|_]; [lia|].
  pose proof (segs_loop_offset_all width path [] []) as Hloop.
  cbn [app length] in Hloop. rewrite Hloop. clear Hloop.
  destruct (offset_all width path) as [ss|e]; [|done].
  cbn [mbind result_bind bind app].
  destruct ss as [|s0 rest]; [done|].
  cbn [getitem lookup list_lookup mbind result_bind bind length Nat.sub].
  rewrite Nat.sub_0_r.
  pose proof (inner_loop_corners [] s0 rest [s0.1.1]) as Hloop.
  cbn [app length] in Hloop. rewrite Hloop. clear Hloop.
  cbn [mbind result_bind bind]. unfold getlast.
  destruct (last (s0 :: rest)) as [sl|]; done.
Qed.

Lemma inner_path_from_outer_short (path : list point) width :
  (length path < 2)%nat → inner_path_from_outer path width = Ok [].
Proof.
  intros Hn. unfold inner_path_from_outer.
  by destruct (Nat.ltb_spec (length path) 2) as [_|?]; [|lia].
Qed.

(** When the first loop accepts every pair, the function returns. *)
Lemma inner_path_from_outer_Ok (path : list point) width ss :
  (2 ≤ length path)%nat →
  offset_all width path = Ok ss →
  ∃ s0 sl, head ss = Some s0 ∧ last ss = Some sl ∧
    inner_path_from_outer path width
    = Ok (seg_start s0 :: corners ss ++ [seg_end sl]).
Proof.
  intros Hn Hss. rewrite inner_path_from_outer_unfold, Hss by done.
  pose proof (length_offset_all _ _ _ Hss) as Hlen.
  destruct ss as [|s0 rest]; [cbn in Hlen; lia|].
  cbn [mbind result_bind bind].
  destruct (last (s0 :: rest)) as [sl|] eqn:Hl.
  - by exists s0, sl.
  - by apply last_None in Hl.
Qed.

Lemma inner_path_from_outer_Raise (path : list point) width e :
  inner_path_from_outer path width = Raise e ↔
  offset_all width path = Raise e.
Proof.
  destruct (Nat.lt_ge_cases (length path) 2) as [Hn|Hn].
  - rewrite inner_path_from_outer_short by done.
    destruct path as [|p1 [|p2 rest]]; cbn in Hn; [done|done|lia].
  - destruct (offset_all width path) as [ss|e'] eqn:Hss.
    + destruct (inner_path_from_outer_Ok _ _ _ Hn Hss)
        as (s0 & sl & _ & _ & ->). done.
    + rewrite inner_path_from_outer_unfold, Hss by done. cbn. split; by intros [= ->].
Qed.

End offsetter_loops.

(** ** The body of the first loop *)

Section offset_segment_facts.

Lemma Qlt_bool_spec (a b : Q) : reflect (a < b) (Qlt_bool a b).
Proof.
  unfold Qlt_bool. destruct (Qle_bool b a) eqn:E; cbn; constructor.
  - apply Qle_bool_iff in E. by apply Qle_not_lt.
  - apply Qnot_le_lt. intros H%Qle_bool_iff. congruence.
Qed.

Lemma Qgt_bool_spec (a b : Q) : reflect (b < a) (Qgt_bool a b).
Proof. apply Qlt_bool_spec. Qed.

Lemma Qabs_small (x : Q) : x == 0 → Qabs x < eps.
Proof. intros ->. done. Qed.

Lemma diagonal_not_degenerate p q : diagonal p q → ¬ degenerate p q.
Proof. intros [H1 _] [H2 _]. lra. Qed.

(** The three outcomes of the body, by the two tests of the source. *)
Lemma offset_segment_cases width (p q : point) :
  (diagonal p q ∧ offset_segment width p q = Raise NonAxisAlignedSegment) ∨
  (degenerate p q ∧ offset_segment width p q = Raise DegenerateSegment) ∨
  (¬ diagonal p q ∧ ¬ degenerate p q ∧
   ∃ s, offset_segment width p q = Ok s).
Proof.
  destruct p as [x1 y1], q as [x2 y2].
  unfold diagonal, degenerate, offset_segment. cbn [fst snd].
  destruct (Qgt_bool_spec (Qabs (x2 - x1)) eps) as [Hx|Hx];
    destruct (Qgt_bool_spec (Qabs (y2 - y1)) eps) as [Hy|Hy];
    cbn [andb]; [by left|..];
    (destruct (Qlt_bool_spec (Qabs (x2 - x1)) eps) as [Hx'|Hx'];
     destruct (Qlt_bool_spec (Qabs (y2 - y1)) eps) as [Hy'|Hy'];
     cbn [andb]; [by (right; left)|..]);
    right; right; (split; [tauto|]); (split; [tauto|]);
    destruct (Qgt_bool (y2 - y1) 0), (Qgt_bool (x2 - x1) 0); eauto.
Qed.

Lemma offset_segment_Ok width p q s :
  offset_segment width p q = Ok s → ¬ diagonal p q ∧ ¬ degenerate p q.
Proof.
  destruct (offset_segment_cases width p q)
    as [[_ ->]|[[_ ->]|(? & ? & _)]]; done.
Qed.

Lemma offset_segment_accepts width p q :
  ¬ diagonal p q → ¬ degenerate p q → ∃ s, offset_segment width p q = Ok s.
Proof.
  intros Hd Hz.
  destruct (offset_segment_cases width p q)
    as [[? _]|[[? _]|(_ & _ & ?)]]; done.
Qed.

Lemma offset_segment_NonAxisAligned width p q :
  offset_segment width p q = Raise NonAxisAlignedSegment ↔ diagonal p q.
Proof.
  destruct (offset_segment_cases width p q)
    as [[H ->]|[[H ->]|(H & _ & s & ->)]]; split; try done.
  intros Hd. by apply diagonal_not_degenerate in Hd.
Qed.

Lemma offset_segment_Degenerate width p q :
  offset_segment width p q = Raise DegenerateSegment ↔ degenerate p q.
Proof.
  destruct (offset_segment_cases width p q)
    as [[H ->]|[[H ->]|(_ & H & s & ->)]]; split; try done.
  intros Hz. by apply diagonal_not_degenerate in H.
Qed.

Lemma offset_segment_Raise width p q e :
  offset_segment width p q = Raise e →
  e = NonAxisAlignedSegment ∨ e = DegenerateSegment.
Proof.
  destruct (offset_segment_cases width p q)
    as [[_ ->]|[[_ ->]|(_ & _ & s & ->)]]; intros [= <-]; auto.
Qed.

(** A pair that keeps one coordinate is never refused as diagonal. *)
Lemma one_coordinate_not_diagonal p q :
  q.1 == p.1 ∨ q.2 == p.2 → ¬ diagonal p q.
Proof.
  assert (0 < eps) as Heps by done.
  intros [H|H] [H1 H2].
  - assert (q.1 - p.1 == 0) as H0 by lra.
    rewrite H0 in H1. change (Qabs 0) with 0 in H1. lra.
  - assert (q.2 - p.2 == 0) as H0 by lra.
    rewrite H0 in H2. change (Qabs 0) with 0 in H2. lra.
Qed.

Lemma travels_not_diagonal p q dir : travels p q dir → ¬ diagonal p q.
Proof.
  intros H. apply one_coordinate_not_diagonal.
  destruct dir; cbn in H; tauto.
Qed.

(** On an accepted segment that keeps one coordinate the source applies
    the right-hand rule. *)
Lemma offset_segment_travels width p q dir s :
  travels p q dir →
  offset_segment width p q = Ok s →
  s = offset_by width dir p q.
Proof.
  assert (0 < eps) as Heps by done.
  intros Ht Hs. pose proof (offset_segment_Ok _ _ _ _ Hs) as [_ Hz].
  revert Hs Hz. destruct p as [x1 y1], q as [x2 y2].
  unfold degenerate, offset_segment, offset_by, translate. cbn [fst snd].
  destruct (Qgt_bool (Qabs (x2 - x1)) eps && Qgt_bool (Qabs (y2 - y1)) eps);
    [done|].
  destruct (Qlt_bool_spec (Qabs (x2 - x1)) eps) as [Hx|Hx];
    destruct (Qlt_bool_spec (Qabs (y2 - y1)) eps) as [Hy|Hy];
    cbn [andb]; [done|..];
    destruct (Qgt_bool_spec (y2 - y1) 0) as [Hdy|Hdy];
    destruct (Qgt_bool_spec (x2 - x1) 0) as [Hdx|Hdx];
    intros [= <-] _; destruct dir; cbn in Ht; destruct Ht as [Ht1 Ht2];
    try reflexivity; exfalso;
    try lra;
    try (apply Hx, Qabs_small; lra);
    try (apply Hy, Qabs_small; lra).
Qed.

End offset_segment_facts.

(** ** The offset segments and the inner vertices, by position *)

Section positions.

Lemma offset_all_lookup width path ss :
  offset_all width path = Ok ss →
  ∀ (k : nat) p q, path !! k = Some p → path !! S k = Some q →
    ∃ s, ss !! k = Some s ∧ offset_segment width p q = Ok s.
Proof.
  revert ss. induction path as [|p1 path IH]; intros ss Hss k p q Hp Hq.
  - done.
  - destruct path as [|p2 rest]; [done|].
    rewrite offset_all_cons2 in Hss.
    apply bind_Ok in Hss as (s & Hs & Hss).
    apply bind_Ok in Hss as (ss' & Hss' & [= <-]).
    destruct k as [|k].
    + cbn in Hp, Hq. injection Hp as <-. injection Hq as <-. eauto.
    + apply (IH _ Hss' k p q Hp Hq).
Qed.

(** The first loop raises at the first pair that its body refuses. *)
Lemma offset_all_Raise width path e :
  offset_all width path = Raise e ↔
  ∃ (k : nat) p q,
    path !! k = Some p ∧ path !! S k = Some q ∧
    offset_segment width p q = Raise e ∧
    ∀ (j : nat) p' q', (j < k)%nat →
      path !! j = Some p' → path !! S j = Some q' →
      ∃ s, offset_segment width p' q' = Ok s.
Proof.
  induction path as [|p1 path IH].
  - split; [done | by intros (k & p & q & ? & _)].
  - destruct path as [|p2 rest].
    { split; [done | by intros ([|k] & p & q & _ & ? & _)]. }
    rewrite offset_all_cons2.
    destruct (offset_segment width p1 p2) as [s|e1] eqn:Hs;
      cbn [mbind result_bind bind].
    + transitivity (offset_all width (p2 :: rest) = Raise e).
      { destruct (offset_all width (p2 :: rest)); cbn; split; congruence. }
      rewrite IH. split.
      * intros (k & p & q & Hp & Hq & He & Hpre).
        exists (S k), p, q. repeat split; try done.
        intros [|j] p' q' Hj Hp' Hq'.
        -- cbn in Hp', Hq'. injection Hp' as <-. injection Hq' as <-. eauto.
        -- apply (Hpre j); [lia|done..].
      * intros ([|k] & p & q & Hp & Hq & He & Hpre).
        -- cbn in Hp, Hq. injection Hp as <-. injection Hq as <-. congruence.
        -- exists k, p, q. repeat split; try done.
           intros j p' q' Hj Hp' Hq'. apply (Hpre (S j)); [lia|done..].
    + split.
      * intros [= <-]. exists 0%nat, p1, p2. repeat split; try done.
        intros j ? ? Hj. lia.
      * intros ([|k] & p & q & Hp & Hq & He & Hpre).
        -- cbn in Hp, Hq. injection Hp as <-. injection Hq as <-. congruence.
        -- destruct (Hpre 0%nat p1 p2) as [s Hs']; [lia|done..|congruence].
Qed.

Lemma offset_all_accepts width path :
  adjacent (λ p q, ¬ diagonal p q ∧ ¬ degenerate p q) path →
  ∃ ss, offset_all width path = Ok ss.
Proof.
  intros Hadj. destruct (offset_all width path) as [ss|e] eqn:Hss; [eauto|].
  apply offset_all_Raise in Hss as (k & p & q & Hp & Hq & He & _).
  destruct (Hadj k p q Hp Hq) as [Hd Hz].
  destruct (offset_segment_accepts width p q Hd Hz) as [s Hs]. congruence.
Qed.

Lemma corners_lookup (segs : list seg) (k : nat) a b :
  segs !! k = Some a → segs !! S k = Some b →
  corners segs !! k = Some (inner_vertex a b).
Proof.
  revert k. induction segs as [|a0 segs IH]; intros k Ha Hb; [done|].
  destruct segs as [|b0 rest]; [done|].
  rewrite corners_cons2. destruct k as [|k].
  - cbn in Ha, Hb. by injection Ha as <-; injection Hb as <-.
  - apply (IH k Ha Hb).
Qed.

(** The body of the second loop is the corner of the specification. *)
Lemma inner_vertex_corner (a b : seg) : inner_vertex a b = corner a b.
Proof. by destruct a as [[a1 a2] [|]], b as [[b1 b2] [|]]. Qed.

Lemma travels_unique p q d1 d2 : travels p q d1 → travels p q d2 → d1 = d2.
Proof. destruct d1, d2; cbn; intros [? ?] [? ?]; try done; lra. Qed.

End positions.

(** ** The turn generator *)

(** C2. For [N >= 1], [compute_coords] returns exactly [N] turns; turn 1 has
    the corners [(0,0)], [(0,By)], [(Lx,By)], [(Lx,0)], and every turn
    [t > 1], with [i = t - 1] and [d = width + gap], has the corners
    [(i*d, (i-1)*d)], [(i*d, By - i*d)], [(Lx - i*d, By - i*d)] and
    [(Lx - i*d, i*d)]: the y of the first corner uses [i - 1], the y of the
    last one uses [i]. *)
Theorem compute_coords_turns (Lx By width gap : Q) (N : Z) :
  (1 ≤ N)%Z →
  length (compute_coords Lx By N width gap) = Z.to_nat N ∧
  compute_coords Lx By N width gap !! 0%nat
    = Some [(0, 0); (0, By); (Lx, By); (Lx, 0)] ∧
  ∀ t : Z, (1 < t ≤ N)%Z →
    compute_coords Lx By N width gap !! Z.to_nat (t - 1)
    = Some (inner_turn_corners Lx By (width + gap) t).
Proof.
  intros HN. split; [apply length_compute_coords|]. split.
  - apply (lookup_compute_coords Lx By N width gap 1). lia.
  - apply lookup_compute_coords_inner.
Qed.

Lemma compute_coords_turns_witness :
  length (compute_coords 10 6 2 (15 # 100) (15 # 100)) = Z.to_nat 2 ∧
  compute_coords 10 6 2 (15 # 100) (15 # 100) !! 0%nat
    = Some [(0, 0); (0, 6); (10, 6); (10, 0)] ∧
  ∀ t : Z, (1 < t ≤ 2)%Z →
    compute_coords 10 6 2 (15 # 100) (15 # 100) !! Z.to_nat (t - 1)
    = Some (inner_turn_corners 10 6 ((15 # 100) + (15 # 100)) t).
Proof. apply (compute_coords_turns 10 6 (15 # 100) (15 # 100) 2). lia. Defined.

(** The scenario of the specification: [Lx=10, By=6, width=gap=0.15, N=2]. *)
Example compute_coords_scenario :
  compute_coords 10 6 2 (15 # 100) (15 # 100)
  = [ [(0, 0); (0, 6); (10, 6); (10, 0)];
      [(3000 # 10000, 0 # 10000); (3000 # 10000, 57000 # 10000);
       (97000 # 10000, 57000 # 10000); (97000 # 10000, 3000 # 10000)] ].
Proof. reflexivity. Qed.

(** C1, as stated, fails: with [Lx=1, By=1, width=1, gap=1, N=5] the second
    turn already has [x_right_in <= x_in], yet [compute_coords] returns the
    five turns, and the request without inner path returns its points. *)
Lemma compute_coords_unchecked_counterexample :
  (2 ≤ 2 ≤ 5)%Z ∧ degenerate_turn 1 1 1 1 2 ∧
  compute_coords 1 1 5 1 1
  = [ [(0, 0); (0, 1); (1, 1); (1, 0)];
      [(2, 0); (2, -1); (-1, -1); (-1, 2)];
      [(4, 2); (4, -3); (-3, -3); (-3, 4)];
      [(6, 4); (6, -5); (-5, -5); (-5, 6)];
      [(8, 6); (8, -7); (-7, -7); (-7, 8)] ] ∧
  ∃ points, index_points 1 1 1 1 5 false = Ok points.
Proof.
  split; [lia|]. split; [left; by vm_compute|]. split; [reflexivity|].
  eexists. vm_compute. reflexivity.
Qed.

(** C1, amended.  [compute_coords] has no validity check: also when some turn
    [t] in [2..N] has [x_right_in <= x_in] or [y_top_in <= y_bottom_in], it
    returns the [N] turns, the degenerate turn [t] among them with the
    corners of the formula. *)
Theorem compute_coords_degenerate_returned (Lx By width gap : Q) (N t : Z) :
  (2 ≤ t ≤ N)%Z →
  degenerate_turn Lx By width gap t →
  length (compute_coords Lx By N width gap) = Z.to_nat N ∧
  compute_coords Lx By N width gap !! Z.to_nat (t - 1)
  = Some (inner_turn_corners Lx By (width + gap) t).
Proof.
  intros Ht _. split; [apply length_compute_coords|].
  apply lookup_compute_coords_inner. lia.
Qed.

Lemma compute_coords_degenerate_returned_witness :
  length (compute_coords 1 1 5 1 1) = Z.to_nat 5 ∧
  compute_coords 1 1 5 1 1 !! Z.to_nat (2 - 1)
  = Some (inner_turn_corners 1 1 (1 + 1) 2).
Proof.
  apply (compute_coords_degenerate_returned 1 1 1 1 5 2); [lia|].
  left. by vm_compute.
Defined.

(** ** The two flattening functions *)

(** C10. On every list of turns [outer_path_from_turns] and
    [build_spiral_path_from_turns] give the same result; on turns of four
    points both return the concatenation of the turns. *)
Theorem flatten_functions_agree (turns : list turn) :
  outer_path_from_turns turns = build_spiral_path_from_turns turns ∧
  (Forall (λ t, length t = 4%nat) turns →
   outer_path_from_turns turns = Ok (concat turns) ∧
   build_spiral_path_from_turns turns = Ok (concat turns)).
Proof.
  assert (outer_path_from_turns turns = build_spiral_path_from_turns turns)
    as Heq.
  { unfold build_spiral_path_from_turns.
    by rewrite build_spiral_path_loop_eq. }
  split; [done|]. intros Hall. rewrite <- Heq.
  by rewrite outer_path_from_turns_concat.
Qed.

Lemma flatten_functions_agree_witness :
  outer_path_from_turns (compute_coords 10 6 2 (15 # 100) (15 # 100))
  = Ok (concat (compute_coords 10 6 2 (15 # 100) (15 # 100))) ∧
  build_spiral_path_from_turns (compute_coords 10 6 2 (15 # 100) (15 # 100))
  = Ok (concat (compute_coords 10 6 2 (15 # 100) (15 # 100))).
Proof.
  apply (flatten_functions_agree (compute_coords 10 6 2 (15 # 100) (15 # 100))).
  repeat constructor.
Defined.

(** ** The regrouper *)

(** C7. On a path of exactly [4N] points, regrouping into turns and
    flattening again gives back the path. *)
Theorem regroup_flatten_roundtrip (path : list point) (N : Z) :
  Z.of_nat (length path) = (4 * N)%Z →
  outer_path_from_turns (inner_turns_from_inner_path path N) = Ok path.
Proof.
  intros Hlen. rewrite inner_turns_blocks, outer_path_from_turns_concat.
  - rewrite concat_blocks, drop_0. f_equal. apply take_ge. lia.
  - apply Forall_fmap, Forall_forall. intros k Hk%elem_of_seq. cbn.
    rewrite length_take, length_drop. lia.
Qed.

Lemma regroup_flatten_roundtrip_witness :
  outer_path_from_turns
    (inner_turns_from_inner_path
       [(0, 0); (0, 6); (10, 6); (10, 0); (1, 0); (1, 5); (9, 5); (9, 1)] 2)
  = Ok [(0, 0); (0, 6); (10, 6); (10, 0); (1, 0); (1, 5); (9, 5); (9, 1)].
Proof. apply regroup_flatten_roundtrip. reflexivity. Defined.

(** C8, as stated, fails: a path of one point regrouped for [N = 1] is cut
    into one short block and nothing is raised. *)
Lemma regroup_unchecked_counterexample :
  Z.of_nat (length [(0, 0) : point]) ≠ (4 * 1)%Z ∧
  inner_turns_from_inner_path [(0, 0)] 1 = [[(0, 0)]] ∧
  inner_turns_from_inner_path [(0, 0); (1, 0); (2, 0); (3, 0); (4, 0)] 1
  = [[(0, 0); (1, 0); (2, 0); (3, 0)]].
Proof. split; [done|]. split; reflexivity. Qed.

(** C8, amended.  [inner_turns_from_inner_path] checks no length: on a path
    whose length is not [4N] it raises nothing and returns [N] blocks, block
    [k] being the slice [inner_path[4k:4k+4]], cut short or empty where the
    path ends. *)
Theorem regroup_length_mismatch_slices (inner_path : list point) (N : Z) :
  Z.of_nat (length inner_path) ≠ (4 * N)%Z →
  length (inner_turns_from_inner_path inner_path N) = Z.to_nat N ∧
  ∀ k : nat, (k < Z.to_nat N)%nat →
    inner_turns_from_inner_path inner_path N !! k
    = Some (take 4 (drop (4 * k) inner_path)).
Proof.
  intros _. rewrite inner_turns_blocks. split.
  - by rewrite length_fmap, length_seq.
  - intros k Hk. by rewrite list_lookup_fmap, lookup_seq_lt.
Qed.

Lemma regroup_length_mismatch_slices_witness :
  length (inner_turns_from_inner_path [(0, 0); (1, 0)] 2) = Z.to_nat 2 ∧
  ∀ k : nat, (k < Z.to_nat 2)%nat →
    inner_turns_from_inner_path [(0, 0); (1, 0)] 2 !! k
    = Some (take 4 (drop (4 * k) [(0, 0); (1, 0)])).
Proof. apply regroup_length_mismatch_slices. done. Defined.

(** ** The export assembly *)

(** C6. For a non-empty outer path of [4N] points: without the inner path
    the export sequence is the outer path followed by its first point,
    [4N + 1] points; with a non-empty inner path of [4N] points it is the
    outer path, the inner path reversed, then the first outer point,
    [8N + 1] points. *)
Theorem export_points_assembly (N : nat) (outer_path : list point) (p0 : point) :
  outer_path !! 0%nat = Some p0 →
  length outer_path = (4 * N)%nat →
  (∀ inner_path,
     export_points false outer_path inner_path = Ok (outer_path ++ [p0])) ∧
  length (outer_path ++ [p0]) = (4 * N + 1)%nat ∧
  (∀ inner_path : list point,
     inner_path ≠ [] → length inner_path = (4 * N)%nat →
     export_points true outer_path (Some inner_path)
     = Ok (outer_path ++ reverse inner_path ++ [p0]) ∧
     length (outer_path ++ reverse inner_path ++ [p0]) = (8 * N + 1)%nat).
Proof.
  intros Hp0 Hlen. destruct outer_path as [|p outer']; [done|].
  injection Hp0 as ->. split; [done|]. split.
  - rewrite length_app, Hlen. cbn. lia.
  - intros inner_path Hne Hin. split.
    + unfold export_points. rewrite bool_decide_true by done.
      cbn [mbind result_bind bind]. by rewrite <- app_assoc.
    + rewrite !length_app, length_reverse, Hlen, Hin. cbn. lia.
Qed.

Lemma export_points_assembly_witness :
  (∀ inner_path,
     export_points false [(0, 0); (0, 6); (10, 6); (10, 0)] inner_path
     = Ok ([(0, 0); (0, 6); (10, 6); (10, 0)] ++ [(0, 0)])) ∧
  length ([(0, 0); (0, 6); (10, 6); (10, 0)] ++ [(0, 0) : point])
  = (4 * 1 + 1)%nat ∧
  (∀ inner_path : list point,
     inner_path ≠ [] → length inner_path = (4 * 1)%nat →
     export_points true [(0, 0); (0, 6); (10, 6); (10, 0)] (Some inner_path)
     = Ok ([(0, 0); (0, 6); (10, 6); (10, 0)] ++ reverse inner_path
           ++ [(0, 0)]) ∧
     length ([(0, 0); (0, 6); (10, 6); (10, 0)] ++ reverse inner_path
             ++ [(0, 0)]) = (8 * 1 + 1)%nat).
Proof.
  apply (export_points_assembly 1 [(0, 0); (0, 6); (10, 6); (10, 0)] (0, 0));
    reflexivity.
Defined.

(** ** The inner offsetter *)

(** C5. On a path of at least two points on which it does not raise,
    [inner_path_from_outer] returns a path of the same length; on a path of
    no or one point it returns the empty list and does not raise. *)
Theorem inner_path_from_outer_length :
  (∀ (outer_path : list point) (width : Q) (inner : list point),
     (2 ≤ length outer_path)%nat →
     inner_path_from_outer outer_path width = Ok inner →
     length inner = length outer_path) ∧
  (∀ (outer_path : list point) (width : Q),
     (length outer_path < 2)%nat →
     inner_path_from_outer outer_path width = Ok []).
Proof.
  split; [|apply inner_path_from_outer_short].
  intros path width inner Hn Hin.
  destruct (offset_all width path) as [ss|e] eqn:Hss.
  - destruct (inner_path_from_outer_Ok _ _ _ Hn Hss)
      as (s0 & sl & _ & _ & Heq).
    rewrite Heq in Hin. injection Hin as <-.
    cbn [length]. rewrite length_app, length_corners.
    rewrite (length_offset_all _ _ _ Hss). cbn. lia.
  - apply inner_path_from_outer_Raise in Hss. congruence.
Qed.

Lemma inner_path_from_outer_length_witness :
  length [(15 # 100, 0); (15 # 100, 585 # 100); (10, 585 # 100) : point]
  = length [(0, 0); (0, 6); (10, 6) : point] ∧
  inner_path_from_outer [(0, 0)] 1 = Ok [].
Proof.
  destruct inner_path_from_outer_length as [Hlong Hshort]. split.
  - apply (Hlong [(0, 0); (0, 6); (10, 6)] (15 # 100)); [cbn; lia|].
    reflexivity.
  - apply Hshort. cbn. lia.
Defined.

(** C3. On an axis-aligned path that [inner_path_from_outer] accepts, the
    offset segment of every consecutive pair is the pair translated by the
    right-hand-of-travel offset ([(+width, 0)] going up, [(-width, 0)] going
    down, [(0, -width)] going right, [(0, +width)] going left); the result is
    the start point of the first offset segment, then one vertex for each
    two adjacent offset segments (the x of the vertical and the y of the
    horizontal one when the orientations differ, the start point of the
    later one when they agree), then the end point of the last offset
    segment. *)
Theorem inner_path_from_outer_right_hand_rule
    (outer_path : list point) (width : Q) (inner : list point) :
  adjacent axis_aligned outer_path →
  (2 ≤ length outer_path)%nat →
  inner_path_from_outer outer_path width = Ok inner →
  ∃ (segs : list seg) (s0 sl : seg) (interior : list point),
    length segs = (length outer_path - 1)%nat ∧
    (∀ (k : nat) p q dir,
       outer_path !! k = Some p → outer_path !! S k = Some q →
       travels p q dir →
       segs !! k = Some (offset_by width dir p q)) ∧
    head segs = Some s0 ∧ last segs = Some sl ∧
    inner = seg_start s0 :: interior ++ [seg_end sl] ∧
    length interior = (length segs - 1)%nat ∧
    (∀ (k : nat) a b,
       segs !! k = Some a → segs !! S k = Some b →
       interior !! k = Some (corner a b) ∧ inner !! S k = Some (corner a b)).
Proof.
  intros Hadj Hn Hin.
  destruct (offset_all width outer_path) as [ss|e] eqn:Hss;
    [|apply inner_path_from_outer_Raise in Hss; congruence].
  destruct (inner_path_from_outer_Ok _ _ _ Hn Hss)
    as (s0 & sl & Hs0 & Hsl & Heq).
  rewrite Heq in Hin. injection Hin as <-.
  exists ss, s0, sl, (corners ss).
  split; [by apply length_offset_all in Hss|]. split.
  { intros k p q dir Hp Hq Hdir.
    destruct (offset_all_lookup _ _ _ Hss k p q Hp Hq) as (s & Hs & Hoff).
    by rewrite Hs, (offset_segment_travels _ _ _ _ _ Hdir Hoff). }
  do 3 (split; [done|]). split; [apply length_corners|].
  intros k a b Ha Hb.
  pose proof (corners_lookup ss k a b Ha Hb) as Hc.
  rewrite inner_vertex_corner in Hc. split; [done|].
  cbn [lookup list_lookup]. by apply lookup_app_l_Some.
Qed.

(** The first five points of the scenario path, offset by [0.15]. *)
Lemma inner_path_from_outer_right_hand_rule_witness :
  ∃ (segs : list seg) (s0 sl : seg) (interior : list point),
    length segs = 4%nat ∧
    (∀ (k : nat) p q dir,
       [(0, 0); (0, 6); (10, 6); (10, 0); (3 # 10, 0) : point] !! k = Some p →
       [(0, 0); (0, 6); (10, 6); (10, 0); (3 # 10, 0) : point] !! S k = Some q →
       travels p q dir →
       segs !! k = Some (offset_by (15 # 100) dir p q)) ∧
    head segs = Some s0 ∧ last segs = Some sl ∧
    [(15 # 100, 0); (15 # 100, 585 # 100); (985 # 100, 585 # 100);
     (985 # 100, 15 # 100); (3 # 10, 15 # 100)]
    = seg_start s0 :: interior ++ [seg_end sl] ∧
    length interior = (length segs - 1)%nat ∧
    (∀ (k : nat) a b,
       segs !! k = Some a → segs !! S k = Some b →
       interior !! k = Some (corner a b) ∧
       [(15 # 100, 0); (15 # 100, 585 # 100); (985 # 100, 585 # 100);
        (985 # 100, 15 # 100); (3 # 10, 15 # 100)] !! S k
       = Some (corner a b)).
Proof.
  apply (inner_path_from_outer_right_hand_rule
           [(0, 0); (0, 6); (10, 6); (10, 0); (3 # 10, 0)] (15 # 100)).
  - intros [|[|[|[|[|k]]]]] p q Hp Hq; cbn in Hp, Hq; try done;
      injection Hp as <-; injection Hq as <-.
    + exists GoUp. by cbn.
    + exists GoRight. by cbn.
    + exists GoDown. by cbn.
    + exists GoLeft. by cbn.
  - cbn. lia.
  - reflexivity.
Defined.

(** C4, as stated, fails: the path [(0,0), (0,0), (1,1)] contains the
    segment from [(0,0)] to [(1,1)], which changes both coordinates by more
    than the tolerance, but the zero-length pair in front of it is met
    first and the error raised is the one for a zero-length segment. *)
Lemma first_refused_pair_counterexample :
  (∃ (k : nat) p q,
     [(0, 0); (0, 0); (1, 1) : point] !! k = Some p ∧
     [(0, 0); (0, 0); (1, 1) : point] !! S k = Some q ∧
     p = (0, 0) ∧ q = (1, 1) ∧ diagonal p q) ∧
  inner_path_from_outer [(0, 0); (0, 0); (1, 1)] 1 = Raise DegenerateSegment ∧
  inner_path_from_outer [(0, 0); (0, 0); (1, 1)] 1
  ≠ Raise NonAxisAlignedSegment.
Proof.
  split; [|split; [reflexivity | by vm_compute]].
  exists 1%nat, (0, 0), (1, 1). repeat split; reflexivity.
Qed.

(** C4, amended.  [inner_path_from_outer] raises at the first consecutive
    pair that one of the two validations refuses: the error for a
    non-axis-aligned segment if and only if that first refused pair changes
    both coordinates by more than [1e-12] in absolute value, the error for a
    zero-length segment if and only if it changes neither coordinate by at
    least [1e-12]; no other error is raised; the path [(0,0), (1,1)] raises
    the non-axis-aligned error; a call that raises returns no path. *)
Theorem inner_path_from_outer_errors (outer_path : list point) (width : Q) :
  (inner_path_from_outer outer_path width = Raise NonAxisAlignedSegment ↔
   ∃ (k : nat) p q,
     outer_path !! k = Some p ∧ outer_path !! S k = Some q ∧
     diagonal p q ∧ accepted_before outer_path k) ∧
  (inner_path_from_outer outer_path width = Raise DegenerateSegment ↔
   ∃ (k : nat) p q,
     outer_path !! k = Some p ∧ outer_path !! S k = Some q ∧
     degenerate p q ∧ accepted_before outer_path k) ∧
  (∀ e, inner_path_from_outer outer_path width = Raise e →
     (e = NonAxisAlignedSegment ∨ e = DegenerateSegment) ∧
     ∀ inner, inner_path_from_outer outer_path width ≠ Ok inner) ∧
  inner_path_from_outer [(0, 0); (1, 1)] width = Raise NonAxisAlignedSegment.
Proof.
  assert (∀ k,
    (∀ (j : nat) p' q', (j < k)%nat →
       outer_path !! j = Some p' → outer_path !! S j = Some q' →
       ∃ s, offset_segment width p' q' = Ok s)
    ↔ accepted_before outer_path k) as Hpre.
  { intros k. split; intros H j p q Hj Hp Hq.
    - destruct (H j p q Hj Hp Hq) as [s Hs].
      by apply offset_segment_Ok in Hs.
    - destruct (H j p q Hj Hp Hq) as [Hd Hz].
      by apply offset_segment_accepts. }
  split_and!.
  - split.
    + intros (k & p & q & Hp & Hq & He & Ha)%inner_path_from_outer_Raise
        %offset_all_Raise.
      exists k, p, q. split_and!; [done|done| |by apply Hpre].
      by apply offset_segment_NonAxisAligned in He.
    + intros (k & p & q & Hp & Hq & Hd & Ha).
      apply inner_path_from_outer_Raise, offset_all_Raise.
      exists k, p, q. split_and!; [done|done| |by apply Hpre].
      by apply offset_segment_NonAxisAligned.
  - split.
    + intros (k & p & q & Hp & Hq & He & Ha)%inner_path_from_outer_Raise
        %offset_all_Raise.
      exists k, p, q. split_and!; [done|done| |by apply Hpre].
      by apply offset_segment_Degenerate in He.
    + intros (k & p & q & Hp & Hq & Hd & Ha).
      apply inner_path_from_outer_Raise, offset_all_Raise.
      exists k, p, q. split_and!; [done|done| |by apply Hpre].
      by apply offset_segment_Degenerate.
  - intros e He. split; [|intros inner Hin; congruence].
    apply inner_path_from_outer_Raise, offset_all_Raise in He
      as (k & p & q & _ & _ & He & _).
    by apply offset_segment_Raise in He.
  - reflexivity.
Qed.

(** A diagonal second segment after an accepted first one. *)
Lemma inner_path_from_outer_errors_witness :
  inner_path_from_outer [(0, 0); (0, 6); (3, 7)] 1
  = Raise NonAxisAlignedSegment.
Proof.
  apply (proj1 (inner_path_from_outer_errors [(0, 0); (0, 6); (3, 7)] 1)).
  exists 1%nat, (0, 6), (3, 7).
  split; [reflexivity|]. split; [reflexivity|]. split.
  - split; reflexivity.
  - intros [|j] p q Hj Hp Hq; [|lia].
    injection Hp as <-. injection Hq as <-.
    split; intros [H1 H2]; vm_compute in H1; discriminate.
Defined.

(** ** Consecutive pairs of the outer path *)

Section adjacency.

Context (R : point → point → Prop).

Lemma adjacent_app (l1 l2 : list point) :
  adjacent R l1 → adjacent R l2 →
  (∀ p q, last l1 = Some p → head l2 = Some q → R p q) →
  adjacent R (l1 ++ l2).
Proof.
  intros H1 H2 Hlink k p q Hp Hq.
  destruct (decide (S k < length l1)%nat) as [Hlt|Hge].
  - rewrite lookup_app_l in Hp by lia. rewrite lookup_app_l in Hq by lia.
    by apply (H1 k).
  - destruct (decide (S k = length l1)) as [Heq|Hne].
    + rewrite lookup_app_l in Hp by lia. rewrite lookup_app_r in Hq by lia.
      apply Hlink.
      * rewrite last_lookup. by replace (pred (length l1)) with k by lia.
      * rewrite head_lookup.
        by replace (S k - length l1)%nat with 0%nat in Hq by lia.
    + rewrite lookup_app_r in Hp by lia. rewrite lookup_app_r in Hq by lia.
      apply (H2 (k - length l1)%nat); [done|].
      by replace (S (k - length l1)) with (S k - length l1)%nat by lia.
Qed.

Lemma adjacent_four (a b c d : point) :
  R a b → R b c → R c d → adjacent R [a; b; c; d].
Proof.
  intros Hab Hbc Hcd [|[|[|[|k]]]] p q Hp Hq; cbn in Hp, Hq; try done;
    by injection Hp as <-; injection Hq as <-.
Qed.

(** The flattened turns [f 1, ..., f n]: the pairs inside each turn and
    the pair that links a turn to the next one. *)
Lemma adjacent_concat_turns (f : Z → turn) (n : nat) :
  (∀ t, f t ≠ []) →
  (∀ t, (1 ≤ t ≤ Z.of_nat n)%Z → adjacent R (f t)) →
  (∀ t p q, (1 ≤ t < Z.of_nat n)%Z →
     last (f t) = Some p → head (f (t + 1)%Z) = Some q → R p q) →
  adjacent R (concat (f <$> seqZ 1 (Z.of_nat n))).
Proof.
  intros Hne. induction n as [|n IH]; intros Hin Hlink; [done|].
  rewrite seqZ_S, fmap_app, concat_app. cbn [fmap list_fmap concat].
  rewrite app_nil_r. apply adjacent_app.
  - apply IH.
    + intros t Ht. apply Hin. lia.
    + intros t p q Ht. apply Hlink. lia.
  - apply Hin. lia.
  - intros p q Hp Hq. destruct n as [|m]; [done|].
    rewrite seqZ_S, fmap_app, concat_app in Hp. cbn [fmap list_fmap concat] in Hp.
    rewrite app_nil_r, last_app in Hp.
    destruct (last (f (1 + Z.of_nat m)%Z)) as [p'|] eqn:Hl.
    + injection Hp as ->. apply (Hlink (1 + Z.of_nat m)%Z); [lia|done|].
      by replace (1 + Z.of_nat m + 1)%Z with (1 + Z.of_nat (S m))%Z by lia.
    + apply last_None in Hl. by apply Hne in Hl.
Qed.

End adjacency.

(** The flattened result of [compute_coords]. *)
Lemma outer_path_compute_coords (Lx By : Q) (N : Z) (width gap : Q) :
  outer_path_from_turns (compute_coords Lx By N width gap)
  = Ok (concat (compute_coords_turn Lx By (width + gap)
                  <$> seqZ 1 (Z.of_nat (Z.to_nat N)))).
Proof.
  rewrite outer_path_from_turns_concat
    by apply Forall_length_compute_coords.
  rewrite compute_coords_fmap. unfold seqZ. by rewrite Nat2Z.id.
Qed.

Section geometry.

Variables (Lx By d : Q).

Lemma compute_coords_turn_nonempty (t : Z) : compute_coords_turn Lx By d t ≠ [].
Proof. unfold compute_coords_turn. by destruct (t =? 1)%Z. Qed.

(** Whatever the parameters, every pair of the outer path keeps one
    coordinate. *)
Lemma turn_keeps_coordinate (t : Z) :
  adjacent keeps_one_coordinate (compute_coords_turn Lx By d t).
Proof.
  unfold compute_coords_turn. destruct (t =? 1)%Z;
    apply adjacent_four; unfold keeps_one_coordinate; cbn [fst snd];
    ((by left) || (by right)).
Qed.

Lemma link_keeps_coordinate (t : Z) p q :
  (1 ≤ t)%Z →
  last (compute_coords_turn Lx By d t) = Some p →
  head (compute_coords_turn Lx By d (t + 1)) = Some q →
  keeps_one_coordinate p q.
Proof.
  intros Ht. unfold compute_coords_turn.
  destruct (Z.eqb_spec (t + 1) 1) as [?|_]; [lia|].
  replace (t + 1 - 1 - 1)%Z with (t - 1)%Z by lia.
  destruct (Z.eqb_spec t 1) as [->|_]; intros [= <-] [= <-]; right;
    cbn [fst snd]; [|done].
  change (inject_Z (1 - 1)) with 0. ring.
Qed.

End geometry.

(** ** The outer path under the offsetter *)

Section outer_under_offsetter.


(** A path whose pairs keep one coordinate never raises the error for a
    non-axis-aligned segment. *)
Lemma keeps_coordinate_never_diagonal (path : list point) width :
  adjacent keeps_one_coordinate path →
  ∀ e, inner_path_from_outer path width = Raise e → e = DegenerateSegment.
Proof.
  intros Hadj e (k & p & q & Hp & Hq & He & _)%inner_path_from_outer_Raise
    %offset_all_Raise.
  destruct (offset_segment_Raise _ _ _ _ He) as [->| ->]; [|done].
  apply offset_segment_NonAxisAligned in He.
  by apply (one_coordinate_not_diagonal p q) in He; [|apply (Hadj k)].
Qed.



(** Whatever the parameters, the flattened result of [compute_coords]
    keeps one coordinate in every pair. *)
Lemma outer_path_keeps_coordinate (Lx By : Q) (N : Z) (width gap : Q) :
  adjacent keeps_one_coordinate
    (concat (compute_coords_turn Lx By (width + gap)
               <$> seqZ 1 (Z.of_nat (Z.to_nat N)))).
Proof.
  apply adjacent_concat_turns.
  - apply compute_coords_turn_nonempty.
  - intros t _. apply turn_keeps_coordinate.
  - intros t p q Ht. apply link_keeps_coordinate. lia.
Qed.

End outer_under_offsetter.




(** The scenario of the specification through the geometry of the request,
    inner path included: nothing is raised. *)
Example index_points_scenario :
  index_points 10 6 (15 # 100) (15 # 100) 2 true
  = Ok [ (0, 0); (0, 6); (10, 6); (10, 0);
         (3000 # 10000, 0 # 10000); (3000 # 10000, 57000 # 10000);
         (97000 # 10000, 57000 # 10000); (97000 # 10000, 3000 # 10000);
         (9550000 # 1000000, 3000 # 10000);
         (9550000 # 1000000, 5550000 # 1000000);
         (450000 # 1000000, 5550000 # 1000000); (450000 # 1000000, 15 # 100);
         (985 # 100, 15 # 100); (985 # 100, 585 # 100);
         (15 # 100, 585 # 100); (15 # 100, 0); (0, 0) ].
Proof. reflexivity. Qed.

(** * Further properties of the code *)

(** ** Flattening and regrouping *)

Section flatten_regroup.

Lemma unpack4_wrong_length (t : turn) :
  length t ≠ 4%nat →
  unpack4 t
  = Raise (ValueError (if (4 <? length t)%nat
                       then "too many values to unpack"
                       else "not enough values to unpack")).
Proof. destruct t as [|a [|b [|c [|d [|e t]]]]]; done. Qed.

Lemma outer_path_from_turns_loop_app (good rest : list turn) path :
  Forall (λ t, length t = 4%nat) good →
  outer_path_from_turns_loop (good ++ rest) path
  = outer_path_from_turns_loop rest (path ++ concat good).
Proof.
  intros Hgood. revert path.
  induction Hgood as [|t good Ht _ IH]; intros path; cbn.
  - by rewrite app_nil_r.
  - destruct (unpack4_length t Ht) as (P1 & P2 & P3 & P4 & ->). cbn.
    rewrite IH. by rewrite <- app_assoc.
Qed.

Lemma outer_path_from_turns_loop_refused (t : turn) rest path :
  length t ≠ 4%nat →
  outer_path_from_turns_loop (t :: rest) path
  = Raise (ValueError (if (4 <? length t)%nat
                       then "too many values to unpack"
                       else "not enough values to unpack")).
Proof. intros Ht. cbn. by rewrite unpack4_wrong_length. Qed.

(** Every list of turns is a prefix of four-point turns, followed or not by
    a first turn of another size. *)
Lemma first_wrong_turn (turns : list turn) :
  Forall (λ t, length t = 4%nat) turns ∨
  ∃ good t rest, turns = good ++ t :: rest ∧
    Forall (λ t, length t = 4%nat) good ∧ length t ≠ 4%nat.
Proof.
  induction turns as [|t turns IH]; [by left|].
  destruct (decide (length t = 4%nat)) as [Ht|Ht].
  - destruct IH as [IH|(good & t' & rest & -> & Hgood & Ht')].
    + left. by constructor.
    + right. exists (t :: good), t', rest. split_and!; [done| |done].
      by constructor.
  - right. exists [], t, turns. split_and!; [done| |done]. constructor.
Qed.

Lemma concat_four_lookup (turns : list turn) (k j : nat) :
  Forall (λ t, length t = 4%nat) turns → (j < 4)%nat →
  concat turns !! (4 * k + j)%nat = turns !! k ≫= (.!! j).
Proof.
  intros Hall Hj. revert k.
  induction Hall as [|t turns Ht _ IH]; intros k; [done|].
  cbn [concat]. destruct k as [|k].
  - rewrite lookup_app_l by lia. done.
  - rewrite lookup_app_r by lia.
    replace (4 * S k + j - length t)%nat with (4 * k + j)%nat by lia.
    apply IH.
Qed.

Lemma length_concat_four (turns : list turn) :
  Forall (λ t, length t = 4%nat) turns →
  length (concat turns) = (4 * length turns)%nat.
Proof.
  induction 1 as [|t turns Ht _ IH]; [done|].
  cbn [concat]. rewrite length_app, IH, Ht. cbn. lia.
Qed.

Lemma blocks_of_concat_four (turns : list turn) :
  Forall (λ t, length t = 4%nat) turns →
  (λ k : nat, take 4 (drop (4 * k) (concat turns))) <$> seq 0 (length turns)
  = turns.
Proof.
  intros Hall. apply list_eq. intros k. unfold turn in *.
  rewrite list_lookup_fmap.
  destruct (turns !! k) as [t|] eqn:Ht.
  - rewrite lookup_seq_lt by (by eapply lookup_lt_Some). cbn. f_equal.
    pose proof (Forall_lookup_1 _ _ _ _ Hall Ht) as Hlen. cbn in Hlen.
    apply list_eq. intros j.
    destruct (decide (j < 4)%nat) as [Hj|Hj].
    + rewrite lookup_take_lt, lookup_drop by done.
      change (k + (k + (k + (k + 0))))%nat with (4 * k)%nat.
      rewrite concat_four_lookup by done. unfold turn. by rewrite Ht.
    + rewrite lookup_take_ge by lia. symmetry. apply lookup_ge_None_2. lia.
  - rewrite lookup_seq_ge; [done|]. by apply lookup_ge_None_1.
Qed.

End flatten_regroup.

(** X1. On turns of four points each, [outer_path_from_turns] returns a path
    of four times as many points, and the point at position [4k + j] is
    corner [j] of turn [k]. *)
Theorem outer_path_from_turns_positions (turns : list turn) :
  Forall (λ t, length t = 4%nat) turns →
  ∃ path,
    outer_path_from_turns turns = Ok path ∧
    length path = (4 * length turns)%nat ∧
    ∀ (k j : nat) (t : turn),
      turns !! k = Some t → (j < 4)%nat → path !! (4 * k + j)%nat = t !! j.
Proof.
  intros Hall. exists (concat turns).
  split; [by apply outer_path_from_turns_concat|].
  split; [by apply length_concat_four|].
  intros k j t Ht Hj. rewrite concat_four_lookup by done. by rewrite Ht.
Qed.

Lemma outer_path_from_turns_positions_witness :
  ∃ path,
    outer_path_from_turns
      [[(0, 0); (0, 6); (10, 6); (10, 0)]; [(1, 0); (1, 5); (9, 5); (9, 1)]]
    = Ok path ∧
    length path = (4 * 2)%nat ∧
    ∀ (k j : nat) (t : turn),
      [[(0, 0); (0, 6); (10, 6); (10, 0)]; [(1, 0); (1, 5); (9, 5); (9, 1)]]
        !! k = Some t →
      (j < 4)%nat → path !! (4 * k + j)%nat = t !! j.
Proof.
  apply (outer_path_from_turns_positions
           [[(0, 0); (0, 6); (10, 6); (10, 0)];
            [(1, 0); (1, 5); (9, 5); (9, 1)]]).
  repeat constructor.
Defined.

(** X2. [outer_path_from_turns] returns a path exactly when every turn has
    four points; otherwise it raises the [ValueError] of unpacking the first
    turn of another size, "too many values" for a longer and "not enough
    values" for a shorter one, whatever follows that turn. *)
Theorem outer_path_from_turns_unpack_error (turns : list turn) :
  ((∃ path, outer_path_from_turns turns = Ok path) ↔
   Forall (λ t, length t = 4%nat) turns) ∧
  (∀ (good rest : list turn) (t : turn),
     turns = good ++ t :: rest →
     Forall (λ t, length t = 4%nat) good → length t ≠ 4%nat →
     outer_path_from_turns turns
     = Raise (ValueError (if (4 <? length t)%nat
                          then "too many values to unpack"
                          else "not enough values to unpack"))).
Proof.
  assert (∀ (good rest : list turn) (t : turn),
            turns = good ++ t :: rest →
            Forall (λ t, length t = 4%nat) good → length t ≠ 4%nat →
            outer_path_from_turns turns
            = Raise (ValueError (if (4 <? length t)%nat
                                 then "too many values to unpack"
                                 else "not enough values to unpack")))
    as Hraise.
  { intros good rest t -> Hgood Ht. unfold outer_path_from_turns.
    rewrite outer_path_from_turns_loop_app by done.
    by apply outer_path_from_turns_loop_refused. }
  split; [|done]. split.
  - intros [path Hpath].
    destruct (first_wrong_turn turns)
      as [?|(good & t & rest & Heq & Hgood & Ht)]; [done|].
    rewrite (Hraise good rest t Heq Hgood Ht) in Hpath. done.
  - intros Hall. eexists. by apply outer_path_from_turns_concat.
Qed.

Lemma outer_path_from_turns_unpack_error_witness :
  outer_path_from_turns
    [[(0, 0); (0, 6); (10, 6); (10, 0)]; [(1, 0); (1, 5)]; []]
  = Raise (ValueError "not enough values to unpack").
Proof.
  apply (proj2 (outer_path_from_turns_unpack_error
                  [[(0, 0); (0, 6); (10, 6); (10, 0)]; [(1, 0); (1, 5)]; []])
           [[(0, 0); (0, 6); (10, 6); (10, 0)]] [[]] [(1, 0); (1, 5)]).
  - reflexivity.
  - repeat constructor.
  - cbn. lia.
Defined.

(** X3. Regrouping the flattened turns gives the turns back:
    [inner_turns_from_inner_path] applied to the result of
    [outer_path_from_turns] on [N] turns of four points returns those
    turns. *)
Theorem flatten_regroup_roundtrip (turns : list turn) (path : list point) :
  outer_path_from_turns turns = Ok path →
  inner_turns_from_inner_path path (Z.of_nat (length turns)) = turns.
Proof.
  intros Hpath.
  assert (Forall (λ t, length t = 4%nat) turns) as Hall.
  { destruct (first_wrong_turn turns)
      as [?|(good & t & rest & -> & Hgood & Ht)]; [done|].
    unfold outer_path_from_turns in Hpath.
    rewrite outer_path_from_turns_loop_app in Hpath by done.
    by rewrite outer_path_from_turns_loop_refused in Hpath. }
  rewrite outer_path_from_turns_concat in Hpath by done.
  injection Hpath as <-.
  rewrite inner_turns_blocks, Nat2Z.id. by apply blocks_of_concat_four.
Qed.

Lemma flatten_regroup_roundtrip_witness :
  inner_turns_from_inner_path
    [(0, 0); (0, 6); (10, 6); (10, 0); (1, 0); (1, 5); (9, 5); (9, 1)]
    (Z.of_nat
       (length [[(0, 0); (0, 6); (10, 6); (10, 0)];
                [(1, 0); (1, 5); (9, 5); (9, 1) : point]]))
  = [[(0, 0); (0, 6); (10, 6); (10, 0)]; [(1, 0); (1, 5); (9, 5); (9, 1)]].
Proof. apply flatten_regroup_roundtrip. reflexivity. Defined.

(** X4. Regrouping a path for [N] turns and flattening the blocks again
    keeps the first [4N] points when the path has at least [4N] points, and
    raises the [ValueError] for too few values to unpack when the path is
    shorter than [4N]. *)
Theorem regroup_flatten_truncates (path : list point) (N : Z) :
  ((4 * N ≤ Z.of_nat (length path))%Z →
   outer_path_from_turns (inner_turns_from_inner_path path N)
   = Ok (take (Z.to_nat (4 * N)) path)) ∧
  ((Z.of_nat (length path) < 4 * N)%Z →
   outer_path_from_turns (inner_turns_from_inner_path path N)
   = Raise (ValueError "not enough values to unpack")).
Proof.
  rewrite inner_turns_blocks. split; intros Hlen.
  - rewrite outer_path_from_turns_concat.
    + rewrite concat_blocks, drop_0. do 2 f_equal. lia.
    + apply Forall_fmap, Forall_forall. intros k Hk%elem_of_seq. cbn.
      rewrite length_take, length_drop. lia.
  - set (m := (length path / 4)%nat).
    pose proof (Nat.div_mod_eq (length path) 4) as Hdiv.
    pose proof (Nat.mod_upper_bound (length path) 4) as Hmod.
    replace (Z.to_nat N) with (m + S (Z.to_nat N - m - 1))%nat by lia.
    rewrite seq_app, fmap_app. cbn [seq fmap list_fmap].
    unfold outer_path_from_turns.
    rewrite outer_path_from_turns_loop_app.
    + rewrite outer_path_from_turns_loop_refused;
        rewrite length_take, length_drop; [|lia].
      destruct (Nat.ltb_spec 4 (4 `min` (length path - 4 * (0 + m))))
        as [?|_]; [lia|done].
    + apply Forall_fmap, Forall_forall. intros k Hk%elem_of_seq. cbn.
      rewrite length_take, length_drop. lia.
Qed.

Lemma regroup_flatten_truncates_witness :
  outer_path_from_turns
    (inner_turns_from_inner_path
       [(0, 0); (0, 6); (10, 6); (10, 0); (1, 0)] 1)
  = Ok (take (Z.to_nat (4 * 1)) [(0, 0); (0, 6); (10, 6); (10, 0); (1, 0)]) ∧
  outer_path_from_turns
    (inner_turns_from_inner_path
       [(0, 0); (0, 6); (10, 6); (10, 0); (1, 0)] 2)
  = Raise (ValueError "not enough values to unpack").
Proof.
  split.
  - apply regroup_flatten_truncates. cbn. lia.
  - apply regroup_flatten_truncates. cbn. lia.
Defined.

(** ** The request as a whole *)

Section request.

Lemma head_compute_coords Lx By N width gap :
  (1 ≤ N)%Z →
  ∃ rest, concat (compute_coords Lx By N width gap) = (0, 0) :: rest.
Proof.
  intros HN. rewrite compute_coords_fmap, seqZ_cons by lia.
  cbn [fmap list_fmap concat]. unfold compute_coords_turn at 1.
  cbn [Z.eqb Pos.eqb app]. eauto.
Qed.

Lemma outer_path_from_turns_compute_coords Lx By N width gap :
  outer_path_from_turns (compute_coords Lx By N width gap)
  = Ok (concat (compute_coords Lx By N width gap)).
Proof.
  apply outer_path_from_turns_concat, Forall_length_compute_coords.
Qed.

Lemma length_outer_path Lx By N width gap :
  length (concat (compute_coords Lx By N width gap)) = (4 * Z.to_nat N)%nat.
Proof.
  rewrite length_concat_four by apply Forall_length_compute_coords.
  by rewrite length_compute_coords.
Qed.

Lemma compute_coords_keeps_coordinate Lx By N width gap :
  adjacent keeps_one_coordinate (concat (compute_coords Lx By N width gap)).
Proof.
  pose proof (outer_path_compute_coords Lx By N width gap) as H1.
  rewrite outer_path_from_turns_compute_coords in H1. injection H1 as ->.
  apply outer_path_keeps_coordinate.
Qed.

Lemma inner_path_same_length (path inner : list point) width :
  inner_path_from_outer path width = Ok inner →
  (2 ≤ length path)%nat → length inner = length path.
Proof.
  intros Hin Hn.
  destruct (offset_all width path) as [ss|e] eqn:Hss.
  - destruct (inner_path_from_outer_Ok _ _ _ Hn Hss)
      as (s0 & sl & _ & _ & Heq).
    rewrite Heq in Hin. injection Hin as <-.
    cbn [length]. rewrite length_app, length_corners.
    rewrite (length_offset_all _ _ _ Hss). cbn. lia.
  - apply inner_path_from_outer_Raise in Hss. congruence.
Qed.

End request.



(** X6. Without the inner path, for [N >= 1] and any dimensions, also
    degenerate ones, nothing between the parsing of the form and the
    rendering of the template raises, [plot_spiral] apart: [plot_spiral] is
    called on the [4N] outer points, the first being [(0, 0)]; an exception
    of [plot_spiral] leaves [index], and when it returns an image the page
    gets the turns, no inner turns, the image and the text of the outer
    points followed by the closing point [(0, 0)]. *)
Theorem index_post_outer_only {E Img : Type}
    (plot_spiral : list point → E + Img) (Lx By width gap : Q) (N : Z) :
  (1 ≤ N)%Z →
  ∃ outer_path,
    outer_path_from_turns (compute_coords Lx By N width gap) = Ok outer_path ∧
    length outer_path = Z.to_nat (4 * N) ∧
    head outer_path = Some (0, 0) ∧
    index_post plot_spiral Lx By width gap N false
    = match plot_spiral outer_path with
      | inl e => inl e
      | inr coil_plot =>
          inr (Ok (Page (compute_coords Lx By N width gap) None
                     (format_points_txt (outer_path ++ [(0, 0)]))
                     coil_plot))
      end.
Proof.
  intros HN. exists (concat (compute_coords Lx By N width gap)).
  split; [apply outer_path_from_turns_compute_coords|].
  split; [rewrite length_outer_path; lia|].
  destruct (head_compute_coords Lx By N width gap HN) as [rest Hrest].
  split; [by rewrite Hrest|].
  unfold index_post. rewrite outer_path_from_turns_compute_coords.
  destruct (plot_spiral _) as [e|coil_plot]; [done|].
  cbn [mbind result_bind bind fst snd]. unfold export_points.
  cbn [mbind result_bind bind]. by rewrite Hrest.
Qed.

(** Five turns of degenerate dimensions, with a plot that returns the number
    of points it was given. *)
Lemma index_post_outer_only_witness :
  ∃ outer_path,
    outer_path_from_turns (compute_coords 1 1 5 1 1) = Ok outer_path ∧
    length outer_path = Z.to_nat (4 * 5) ∧
    head outer_path = Some (0, 0) ∧
    index_post (λ path, inr (length path) : string + nat) 1 1 1 1 5 false
    = match (inr (length outer_path) : string + nat) with
      | inl e => inl e
      | inr coil_plot =>
          inr (Ok (Page (compute_coords 1 1 5 1 1) None
                     (format_points_txt (outer_path ++ [(0, 0)]))
                     coil_plot))
      end.
Proof.
  apply (index_post_outer_only (λ path, inr (length path) : string + nat)).
  lia.
Defined.

(** X7. With the inner path and [N >= 1], an exception of [plot_spiral]
    leaves [index] before the inner path is computed; otherwise the only
    error raised between the parsing of the form and the rendering of the
    template is the [ValueError] for a zero-length segment, and when the
    offsetter returns, the page gets the turns, the inner path regrouped
    into turns, the image and the text of the outer path, the reversed inner
    path and the closing point: [8N + 1] points that start and end at
    [(0, 0)]. *)
Theorem index_post_with_inner {E Img : Type}
    (plot_spiral : list point → E + Img) (Lx By width gap : Q) (N : Z) :
  (1 ≤ N)%Z →
  ∃ outer_path,
    outer_path_from_turns (compute_coords Lx By N width gap) = Ok outer_path ∧
    match plot_spiral outer_path with
    | inl e => index_post plot_spiral Lx By width gap N true = inl e
    | inr coil_plot =>
        match inner_path_from_outer outer_path width with
        | Raise e =>
            e = DegenerateSegment ∧
            index_post plot_spiral Lx By width gap N true
            = inr (Raise DegenerateSegment)
        | Ok inner =>
            length inner = Z.to_nat (4 * N) ∧
            length (outer_path ++ reverse inner ++ [(0, 0)])
            = Z.to_nat (8 * N + 1) ∧
            head (outer_path ++ reverse inner ++ [(0, 0)]) = Some (0, 0) ∧
            last (outer_path ++ reverse inner ++ [(0, 0)]) = Some (0, 0) ∧
            index_post plot_spiral Lx By width gap N true
            = inr (Ok (Page (compute_coords Lx By N width gap)
                         (Some (inner_turns_from_inner_path inner N))
                         (format_points_txt
                            (outer_path ++ reverse inner ++ [(0, 0)]))
                         coil_plot))
        end
    end.
Proof.
  intros HN. exists (concat (compute_coords Lx By N width gap)).
  split; [apply outer_path_from_turns_compute_coords|].
  destruct (head_compute_coords Lx By N width gap HN) as [rest Hrest].
  pose proof (length_outer_path Lx By N width gap) as Hlen.
  pose proof (compute_coords_keeps_coordinate Lx By N width gap) as Hkeep.
  unfold index_post. rewrite outer_path_from_turns_compute_coords.
  destruct (plot_spiral _) as [e|coil_plot]; [done|].
  destruct (inner_path_from_outer (concat (compute_coords Lx By N width gap))
              width) as [inner|e] eqn:Hin; cbn [mbind result_bind bind fst snd].
  - apply inner_path_same_length in Hin as Hlin; [|lia].
    unfold export_points.
    rewrite bool_decide_true by (intros ->; cbn in Hlin; lia).
    cbn [mbind result_bind bind].
    set (outer_path := concat (compute_coords Lx By N width gap)) in *.
    clearbody outer_path. subst outer_path.
    split; [cbn [length] in *; lia|].
    split.
    { cbn [length] in *. rewrite !length_app, length_reverse, Hlin.
      cbn [length]. lia. }
    split; [done|].
    split; [by rewrite !app_assoc, last_snoc|].
    by rewrite <- app_assoc.
  - pose proof (keeps_coordinate_never_diagonal _ width Hkeep _ Hin) as ->.
    done.
Qed.

(** The scenario of the specification, and two turns whose second one has a
    zero-length side, with a plot that returns the number of points it was
    given. *)
Lemma index_post_with_inner_witness :
  (∃ outer_path,
     outer_path_from_turns (compute_coords 10 6 2 (15 # 100) (15 # 100))
     = Ok outer_path ∧
     match (inr (length outer_path) : string + nat) with
     | inl e =>
         index_post (λ path, inr (length path) : string + nat)
           10 6 (15 # 100) (15 # 100) 2 true = inl e
     | inr coil_plot =>
         match inner_path_from_outer outer_path (15 # 100) with
         | Raise e =>
             e = DegenerateSegment ∧
             index_post (λ path, inr (length path) : string + nat)
               10 6 (15 # 100) (15 # 100) 2 true
             = inr (Raise DegenerateSegment)
         | Ok inner =>
             length inner = Z.to_nat (4 * 2) ∧
             length (outer_path ++ reverse inner ++ [(0, 0)])
             = Z.to_nat (8 * 2 + 1) ∧
             head (outer_path ++ reverse inner ++ [(0, 0)]) = Some (0, 0) ∧
             last (outer_path ++ reverse inner ++ [(0, 0)]) = Some (0, 0) ∧
             index_post (λ path, inr (length path) : string + nat)
               10 6 (15 # 100) (15 # 100) 2 true
             = inr (Ok (Page (compute_coords 10 6 2 (15 # 100) (15 # 100))
                          (Some (inner_turns_from_inner_path inner 2))
                          (format_points_txt
                             (outer_path ++ reverse inner ++ [(0, 0)]))
                          coil_plot))
         end
     end) ∧
  index_post (λ path, inr (length path) : string + nat)
    10 2 (1 # 2) (1 # 2) 2 true
  = inr (Raise DegenerateSegment).
Proof.
  split.
  - apply (index_post_with_inner (λ path, inr (length path) : string + nat)).
    lia.
  - reflexivity.
Defined.

(** ** Displacement of the inner vertices *)

Section displacement.

Lemma inner_path_lookups (path inner : list point) width :
  inner_path_from_outer path width = Ok inner →
  (2 ≤ length path)%nat →
  ∃ ss,
    offset_all width path = Ok ss ∧
    length ss = (length path - 1)%nat ∧
    (∀ s0, ss !! 0%nat = Some s0 → inner !! 0%nat = Some (seg_start s0)) ∧
    (∀ (k : nat) a b, ss !! k = Some a → ss !! S k = Some b →
       inner !! S k = Some (inner_vertex a b)) ∧
    (∀ sl, last ss = Some sl → inner !! length ss = Some (seg_end sl)).
Proof.
  intros Hin Hn.
  destruct (offset_all width path) as [ss|e] eqn:Hss;
    [|apply inner_path_from_outer_Raise in Hss; congruence].
  destruct (inner_path_from_outer_Ok _ _ _ Hn Hss)
    as (s0 & sl & Hs0 & Hsl & Heq).
  rewrite Heq in Hin. injection Hin as <-.
  exists ss. split; [done|]. split; [by apply length_offset_all in Hss|].
  split; [|split].
  - intros s0' Hs0'. rewrite <- head_lookup in Hs0'. cbn. congruence.
  - intros k a b Ha Hb. cbn [lookup list_lookup].
    apply lookup_app_l_Some. by apply corners_lookup.
  - intros sl' Hsl'. cbn [lookup list_lookup].
    assert (length ss = S (length (corners ss))) as ->.
    { rewrite length_corners. destruct ss; [done|cbn; lia]. }
    rewrite app_comm_cons, list_lookup_middle by done. congruence.
Qed.

Lemma corner_displacement width (p q r : point) (d1 d2 : direction) :
  travels p q d1 → travels q r d2 →
  point_eq (inner_vertex (offset_by width d1 p q) (offset_by width d2 q r))
           (translate q (vertex_offset width d1 d2)).
Proof.
  destruct p as [px py], q as [qx qy], r as [rx ry].
  destruct d1, d2; cbn; intros [H1 H1'] [H2 H2']; split; cbn; lra.
Qed.

Lemma inner_first_vertex (path inner : list point) width p q d :
  inner_path_from_outer path width = Ok inner →
  path !! 0%nat = Some p → path !! 1%nat = Some q → travels p q d →
  inner !! 0%nat = Some (translate p (right_hand_offset width d)).
Proof.
  intros Hin Hp Hq Hd.
  destruct (inner_path_lookups _ _ _ Hin)
    as (ss & Hss & Hlen & Hfirst & _ & _).
  { apply lookup_lt_Some in Hq. lia. }
  destruct (offset_all_lookup _ _ _ Hss 0%nat p q Hp Hq) as (s & Hs & Hoff).
  rewrite (Hfirst s Hs).
  by rewrite (offset_segment_travels _ _ _ _ _ Hd Hoff).
Qed.

Lemma inner_middle_vertex (path inner : list point) width (k : nat)
    p q r d1 d2 :
  inner_path_from_outer path width = Ok inner →
  path !! k = Some p → path !! S k = Some q → path !! S (S k) = Some r →
  travels p q d1 → travels q r d2 →
  ∃ v, inner !! S k = Some v ∧
       point_eq v (translate q (vertex_offset width d1 d2)).
Proof.
  intros Hin Hp Hq Hr Hd1 Hd2.
  destruct (inner_path_lookups _ _ _ Hin)
    as (ss & Hss & Hlen & _ & Hmid & _).
  { apply lookup_lt_Some in Hq. lia. }
  destruct (offset_all_lookup _ _ _ Hss k p q Hp Hq) as (a & Ha & Hoffa).
  destruct (offset_all_lookup _ _ _ Hss (S k) q r Hq Hr)
    as (b & Hb & Hoffb).
  eexists. split; [by apply (Hmid k a b)|].
  rewrite (offset_segment_travels _ _ _ _ _ Hd1 Hoffa).
  rewrite (offset_segment_travels _ _ _ _ _ Hd2 Hoffb).
  by apply corner_displacement.
Qed.

Lemma inner_last_vertex (path inner : list point) width (k : nat) p q d :
  inner_path_from_outer path width = Ok inner →
  path !! k = Some p → path !! S k = Some q → length path = S (S k) →
  travels p q d →
  inner !! S k = Some (translate q (right_hand_offset width d)).
Proof.
  intros Hin Hp Hq Hlen Hd.
  destruct (inner_path_lookups _ _ _ Hin)
    as (ss & Hss & Hlss & _ & _ & Hlast); [lia|].
  destruct (offset_all_lookup _ _ _ Hss k p q Hp Hq) as (s & Hs & Hoff).
  assert (length ss = S k) as Hk by lia.
  rewrite <- Hk, (Hlast s).
  - by rewrite (offset_segment_travels _ _ _ _ _ Hd Hoff).
  - rewrite last_lookup, Hk. done.
Qed.

End displacement.

(** X8. On a path that [inner_path_from_outer] accepts, at the vertices
    whose segments are exactly axis-aligned (one coordinate equal at both
    ends, the other strictly increasing or decreasing), the inner vertex is
    the outer vertex at the same position moved by the right-hand offsets of
    the segments that meet there: the first and the last vertex by the
    offset of the only segment they belong to, a corner by the offsets of
    both segments (so by [width] along each axis), a vertex on a straight
    run by the offset of the later segment.  Nothing is said of a vertex
    next to a segment that the offsetter accepts although both of its
    coordinates change. *)
Theorem inner_vertex_displacement
    (outer_path : list point) (width : Q) (inner : list point) :
  inner_path_from_outer outer_path width = Ok inner →
  (∀ p q d,
     outer_path !! 0%nat = Some p → outer_path !! 1%nat = Some q →
     travels p q d →
     inner !! 0%nat = Some (translate p (right_hand_offset width d))) ∧
  (∀ (k : nat) p q r d1 d2,
     outer_path !! k = Some p → outer_path !! S k = Some q →
     outer_path !! S (S k) = Some r →
     travels p q d1 → travels q r d2 →
     ∃ v, inner !! S k = Some v ∧
          point_eq v (translate q (vertex_offset width d1 d2))) ∧
  (∀ (k : nat) p q d,
     outer_path !! k = Some p → outer_path !! S k = Some q →
     length outer_path = S (S k) →
     travels p q d →
     inner !! S k = Some (translate q (right_hand_offset width d))).
Proof.
  intros Hin. split_and!.
  - intros p q d. by apply inner_first_vertex.
  - intros k p q r d1 d2. by apply inner_middle_vertex.
  - intros k p q d. by apply inner_last_vertex.
Qed.

(** A path with a corner, a straight run and a second corner. *)
Lemma inner_vertex_displacement_witness :
  (∀ p q d,
     [(0, 0); (0, 3); (0, 6); (10, 6) : point] !! 0%nat = Some p →
     [(0, 0); (0, 3); (0, 6); (10, 6) : point] !! 1%nat = Some q →
     travels p q d →
     [(1, 0); (1, 3); (1, 5); (10, 5) : point] !! 0%nat
     = Some (translate p (right_hand_offset 1 d))) ∧
  (∀ (k : nat) p q r d1 d2,
     [(0, 0); (0, 3); (0, 6); (10, 6) : point] !! k = Some p →
     [(0, 0); (0, 3); (0, 6); (10, 6) : point] !! S k = Some q →
     [(0, 0); (0, 3); (0, 6); (10, 6) : point] !! S (S k) = Some r →
     travels p q d1 → travels q r d2 →
     ∃ v, [(1, 0); (1, 3); (1, 5); (10, 5) : point] !! S k = Some v ∧
          point_eq v (translate q (vertex_offset 1 d1 d2))) ∧
  (∀ (k : nat) p q d,
     [(0, 0); (0, 3); (0, 6); (10, 6) : point] !! k = Some p →
     [(0, 0); (0, 3); (0, 6); (10, 6) : point] !! S k = Some q →
     length [(0, 0); (0, 3); (0, 6); (10, 6) : point] = S (S k) →
     travels p q d →
     [(1, 0); (1, 3); (1, 5); (10, 5) : point] !! S k
     = Some (translate q (right_hand_offset 1 d))).
Proof.
  apply (inner_vertex_displacement [(0, 0); (0, 3); (0, 6); (10, 6)] 1).
  reflexivity.
Defined.

(** ** The inner path of a clockwise spiral *)

Lemma mod_4_position (t0 j : nat) : (j < 4)%nat → ((4 * t0 + j) mod 4 = j)%nat.
Proof.
  intros Hj. replace (4 * t0 + j)%nat with (j + t0 * 4)%nat by lia.
  rewrite Nat.Div0.mod_add. by apply Nat.mod_small.
Qed.

Lemma point_eq_refl (p : point) : point_eq p p.
Proof. by split. Qed.

Lemma point_eq_trans (p q r : point) : point_eq p q → point_eq q r → point_eq p r.
Proof. intros [H1 H2] [H3 H4]. split; lra. Qed.

Lemma translate_point_eq (p : point) (o1 o2 : Q * Q) :
  point_eq o1 o2 → point_eq (translate p o1) (translate p o2).
Proof. intros [H1 H2]. split; cbn; lra. Qed.

Lemma spiral_offset_corner (width : Q) (n k : nat) :
  S (S k) ≠ n →
  point_eq (vertex_offset width (spiral_direction k) (spiral_direction (S k)))
           (spiral_offset width n (S k)).
Proof.
  intros Hn. unfold spiral_offset, spiral_direction.
  destruct (Nat.eqb_spec (S (S k)) n) as [?|_]; [done|]. cbn [Nat.eqb].
  pose proof (Nat.div_mod_eq k 4) as Hk.
  pose proof (Nat.mod_upper_bound k 4) as Hmod.
  set (a := (k / 4)%nat) in *. set (j := (k mod 4)%nat) in *.
  destruct j as [|[|[|[|j]]]]; [..|lia].
  - replace (S k) with (4 * a + 1)%nat by lia.
    rewrite mod_4_position by lia. split; cbn; lra.
  - replace (S k) with (4 * a + 2)%nat by lia.
    rewrite mod_4_position by lia. split; cbn; lra.
  - replace (S k) with (4 * a + 3)%nat by lia.
    rewrite mod_4_position by lia. split; cbn; lra.
  - replace (S k) with (4 * S a + 0)%nat by lia.
    rewrite mod_4_position by lia. split; cbn; lra.
Qed.

(** X10. On a path of whole turns whose segments travel exactly up, right,
    down, left, and so on (a clockwise rectangular spiral), when the
    offsetter returns, every inner point is the outer point at the same
    position moved inward by [width] along both axes: by [(+w,-w)],
    [(-w,-w)], [(-w,+w)], [(+w,+w)] at the second, third, fourth and first
    corner of a turn; the first point of the path is moved by [(+w, 0)] and
    the last one by [(-w, 0)]. *)
Theorem spiral_inner_displacement
    (outer_path inner : list point) (width : Q) (n : nat) :
  length outer_path = (4 * n)%nat →
  (∀ (k : nat) p q,
     outer_path !! k = Some p → outer_path !! S k = Some q →
     travels p q (spiral_direction k)) →
  inner_path_from_outer outer_path width = Ok inner →
  ∀ (k : nat) p,
    outer_path !! k = Some p →
    ∃ v, inner !! k = Some v ∧
         point_eq v (translate p (spiral_offset width (length outer_path) k)).
Proof.
  intros Hlen Hpairs Hin k p Hp.
  pose proof (lookup_lt_Some _ _ _ Hp) as Hk.
  destruct k as [|k].
  - destruct (lookup_lt_is_Some_2 outer_path 1%nat) as [q Hq]; [lia|].
    pose proof (Hpairs 0%nat p q Hp Hq) as Hdir.
    eexists. split; [exact (inner_first_vertex _ _ _ p q GoUp Hin Hp Hq Hdir)|].
    apply point_eq_refl.
  - destruct (lookup_lt_is_Some_2 outer_path k) as [p' Hp']; [lia|].
    pose proof (Hpairs k p' p Hp' Hp) as Hdir.
    destruct (decide (S (S k) = length outer_path)) as [Hlast|Hmid].
    + assert (spiral_direction k = GoDown) as Hdown.
      { unfold spiral_direction.
        replace k with (4 * (n - 1) + 2)%nat by lia.
        by rewrite mod_4_position by lia. }
      rewrite Hdown in Hdir. eexists.
      split; [exact (inner_last_vertex _ _ _ k p' p GoDown Hin Hp' Hp
                       (eq_sym Hlast) Hdir)|].
      unfold spiral_offset. rewrite <- Hlast, Nat.eqb_refl.
      apply point_eq_refl.
    + destruct (lookup_lt_is_Some_2 outer_path (S (S k))) as [r Hr]; [lia|].
      pose proof (Hpairs (S k) p r Hp Hr) as Hdir'.
      destruct (inner_middle_vertex _ _ _ _ _ _ _ _ _ Hin Hp' Hp Hr Hdir Hdir')
        as (v & Hv & Heq).
      exists v. split; [done|].
      eapply point_eq_trans; [exact Heq|].
      by apply translate_point_eq, spiral_offset_corner.
Qed.

(** The second corner of the first turn of a spiral of two turns, offset by
    [0.15]. *)
Lemma spiral_inner_displacement_witness :
  ∃ v,
    [ (15 # 100, 0); (15 # 100, 585 # 100); (985 # 100, 585 # 100);
      (985 # 100, 15 # 100); (450 # 1000, 15 # 100);
      (450 # 1000, 5550 # 1000); (9550 # 1000, 5550 # 1000);
      (9550 # 1000, 3 # 10) : point ] !! 1%nat = Some v ∧
    point_eq v
      (translate (0, 6)
         (spiral_offset (15 # 100)
            (length [ (0, 0); (0, 6); (10, 6); (10, 0); (3 # 10, 0);
                      (3 # 10, 57 # 10); (97 # 10, 57 # 10);
                      (97 # 10, 3 # 10) : point ])
            1)).
Proof.
  apply (spiral_inner_displacement
           [ (0, 0); (0, 6); (10, 6); (10, 0); (3 # 10, 0);
             (3 # 10, 57 # 10); (97 # 10, 57 # 10); (97 # 10, 3 # 10) ]
           _ (15 # 100) 2).
  - reflexivity.
  - intros k p q Hp Hq.
    do 7 (destruct k as [|k];
          [injection Hp as <-; injection Hq as <-; by vm_compute|]).
    done.
  - reflexivity.
  - reflexivity.
Defined.

(** ** The text of the export *)

Section text.

Lemma occurs_append (c : Ascii.ascii) (s1 s2 : string) :
  occurs c (s1 +:+ s2) = occurs c s1 || occurs c s2.
Proof.
  induction s1 as [|a s1 IH]; [done|].
  change (String a s1 +:+ s2) with (String a (s1 +:+ s2)).
  cbn [occurs]. by rewrite IH, orb_assoc.
Qed.

Lemma uint_no_newline (u : Decimal.uint) :
  occurs newline (NilEmpty.string_of_uint u) = false.
Proof. induction u; cbn; done. Qed.

Lemma digits_no_newline (n : Z) : occurs newline (digits n) = false.
Proof.
  unfold digits, NilZero.string_of_uint.
  destruct (N.to_uint (Z.to_N n)) eqn:Hu; try done;
    rewrite <- Hu; apply uint_no_newline.
Qed.

Lemma format_2f_no_newline (x : Q) : occurs newline (format_2f x) = false.
Proof.
  unfold format_2f. rewrite !occurs_append, !digits_no_newline.
  by destruct (Qlt_bool x 0).
Qed.

Lemma split_on_absent (c : Ascii.ascii) (s : string) :
  occurs c s = false → split_on c s = [s].
Proof.
  induction s as [|a s IH]; [done|]. cbn.
  intros [Ha Hs]%orb_false_iff. by rewrite Ha, IH.
Qed.

Lemma split_on_append (c : Ascii.ascii) (s1 s2 : string) :
  occurs c s1 = false →
  split_on c (s1 +:+ String c s2) = s1 :: split_on c s2.
Proof.
  induction s1 as [|a s1 IH].
  - intros _. change (EmptyString +:+ String c s2) with (String c s2).
    cbn [split_on]. by rewrite Ascii.eqb_refl.
  - cbn [occurs]. intros [Ha Hs]%orb_false_iff.
    change (String a s1 +:+ String c s2) with (String a (s1 +:+ String c s2)).
    cbn [split_on]. by rewrite Ha, IH.
Qed.

Lemma split_on_concat (c : Ascii.ascii) (lines : list string) :
  lines ≠ [] →
  Forall (λ l, occurs c l = false) lines →
  split_on c (String.concat (String c EmptyString) lines) = lines.
Proof.
  intros Hne Hall. induction Hall as [|l lines Hl Hall IH]; [done|].
  destruct lines as [|l' lines].
  - cbn. by apply split_on_absent.
  - change (String.concat (String c EmptyString) (l :: l' :: lines))
      with (l +:+ String c (String.concat (String c EmptyString) (l' :: lines))).
    rewrite split_on_append by done. by rewrite IH.
Qed.

Lemma format_points_txt_loop_fmap (points : list point) (lines : list string) :
  format_points_txt_loop points lines
  = lines ++ ((λ p : point, format_2f p.1 +:+ " " +:+ format_2f p.2) <$> points).
Proof.
  revert lines. induction points as [|[x y] points IH]; intros lines; cbn.
  - by rewrite app_nil_r.
  - by rewrite IH, <- app_assoc.
Qed.

End text.

(** X14. [format_points_txt] writes one line per point, the two coordinates
    with two decimals separated by a space, and puts a newline between the
    lines only: the empty list gives the empty text, and splitting the text
    of a non-empty list at the newlines gives back the lines of the points,
    in order, with no empty line at the end. *)
Theorem format_points_txt_lines :
  format_points_txt [] = EmptyString ∧
  ∀ points : list point,
    points ≠ [] →
    split_on newline (format_points_txt points)
    = (λ p : point, format_2f p.1 +:+ " " +:+ format_2f p.2) <$> points.
Proof.
  split; [done|]. intros points Hne. unfold format_points_txt.
  rewrite format_points_txt_loop_fmap. cbn [app].
  apply split_on_concat.
  - by destruct points.
  - apply Forall_fmap, Forall_forall. intros p _. cbn.
    rewrite !occurs_append, !format_2f_no_newline. done.
Qed.

Lemma format_points_txt_lines_witness :
  split_on newline
    (format_points_txt [(3 # 10, 0); (3 # 10, 57 # 10); (-1, 985 # 100)])
  = ["0.30 0.00"; "0.30 5.70"; "-1.00 9.85"].
Proof.
  apply (proj2 format_points_txt_lines
           [(3 # 10, 0); (3 # 10, 57 # 10); (-1, 985 # 100)]).
  done.
Defined.

(** ** Offsetting by zero *)

Section zero_width.

Lemma right_hand_offset_zero (p : point) (d : direction) :
  point_eq (translate p (right_hand_offset 0 d)) p.
Proof. destruct d; split; cbn; lra. Qed.

Lemma vertex_offset_zero (p : point) (d1 d2 : direction) :
  point_eq (translate p (vertex_offset 0 d1 d2)) p.
Proof. destruct d1, d2; split; cbn; lra. Qed.

End zero_width.

(** X15. With [width = 0] the offsetter gives the path back: on an
    axis-aligned path of at least two points that it accepts, every inner
    point has the coordinates of the outer point at the same position. *)
Theorem inner_path_from_outer_zero_width (outer_path inner : list point) :
  adjacent axis_aligned outer_path →
  (2 ≤ length outer_path)%nat →
  inner_path_from_outer outer_path 0 = Ok inner →
  Forall2 point_eq inner outer_path.
Proof.
  intros Hadj Hn Hin.
  apply Forall2_same_length_lookup_2;
    [by apply (inner_path_same_length _ _ 0)|].
  intros i x y Hx Hy. destruct i as [|k].
  - destruct (lookup_lt_is_Some_2 outer_path 1%nat) as [q Hq]; [lia|].
    destruct (Hadj 0%nat y q Hy Hq) as [d Hd].
    rewrite (inner_first_vertex _ _ _ y q d Hin Hy Hq Hd) in Hx.
    injection Hx as <-. apply right_hand_offset_zero.
  - pose proof (lookup_lt_Some _ _ _ Hy) as Hk.
    destruct (lookup_lt_is_Some_2 outer_path k) as [p Hp]; [lia|].
    destruct (Hadj k p y Hp Hy) as [d1 Hd1].
    destruct (decide (length outer_path = S (S k))) as [Hlast|Hmid].
    + rewrite (inner_last_vertex _ _ _ k p y d1 Hin Hp Hy Hlast Hd1) in Hx.
      injection Hx as <-. apply right_hand_offset_zero.
    + destruct (lookup_lt_is_Some_2 outer_path (S (S k))) as [r Hr]; [lia|].
      destruct (Hadj (S k) y r Hy Hr) as [d2 Hd2].
      destruct (inner_middle_vertex _ _ _ k p y r d1 d2 Hin Hp Hy Hr Hd1 Hd2)
        as (v & Hv & Heq).
      rewrite Hv in Hx. injection Hx as <-.
      eapply point_eq_trans; [exact Heq|]. apply vertex_offset_zero.
Qed.

Lemma inner_path_from_outer_zero_width_witness :
  Forall2 point_eq [(0 + 0, 0 + 0); (0 + 0, 6 + - 0); (10 + 0, 6 + - 0)]
    [(0, 0); (0, 6); (10, 6)].
Proof.
  apply inner_path_from_outer_zero_width.
  - intros [|[|k]] p q Hp Hq; cbn in Hp, Hq; try done;
      injection Hp as <-; injection Hq as <-.
    + exists GoUp. by cbn.
    + exists GoRight. by cbn.
  - cbn. lia.
  - reflexivity.
Defined.
